(** * Optical Morse receiver (lab5_3/main/main.c)

    A shallow embedding of the decoding logic of [main.c]: the symbol table
    [morse_table], the lookup [morse_to_char], and the body of the sampling
    loop of [app_main], which turns one voltage reading per iteration into
    dots, dashes, letters and logged words.

    Conventions.
    - [int] is a 32-bit two's complement integer, carried as a [Z] and
      renormalised by [wrap] after every addition.  C leaves an [int] sum
      outside the range undefined; the model gives it the value the
      processor computes.
    - [char] is [ascii]; a [char] array is a [list ascii] of the declared
      length.  A store outside the array has no defined result and is the
      fault [None] of the option monad, which ends the run.
    - A [const char *] argument is the [string] of the characters found at
      the pointer; reading stops at the first NUL, or at the end of the
      [string], which stands for the terminator.
    - The ADC is outside the model: an iteration takes the reading [volt]
      as its input, and [ESP_LOGI] appends to the list of logged words.
      Where [app_main] as a whole is modelled, the return codes and values
      of the ADC and calibration calls are its parameters. *)

From Stdlib Require Import ZArith Ascii String.
From stdpp Require Import base tactics option list strings numbers.

Local Open Scope Z_scope.

(** ** Machine integers *)

Definition INT_MAX : Z := 2147483647.
Definition INT_MIN : Z := -2147483648.

(** Two's complement renormalisation of an [int] result. *)
Definition wrap (z : Z) : Z := (z + 2147483648) `mod` 4294967296 - 2147483648.

Definition in_int (z : Z) : Prop := INT_MIN ≤ z ≤ INT_MAX.

(** ** C strings *)

Definition NUL : ascii := Ascii.zero.

Definition code_of (c : ascii) : Z := Z.of_N (N_of_ascii c).

(** The characters before the terminator. *)
Fixpoint cstr (s : string) : string :=
  match s with
  | EmptyString => EmptyString
  | String c r => if decide (c = NUL) then EmptyString else String c (cstr r)
  end.

(** [strcmp]: the difference of the first pair of characters that differ,
    both read as [unsigned char]; 0 when both strings end together. *)
Fixpoint strcmp (s1 s2 : string) : Z :=
  match s1, s2 with
  | EmptyString, EmptyString => 0
  | EmptyString, String c2 _ => 0 - code_of c2
  | String c1 _, EmptyString => code_of c1 - 0
  | String c1 r1, String c2 r2 =>
      if decide (c1 = c2)
      then (if decide (c1 = NUL) then 0 else strcmp r1 r2)
      else code_of c1 - code_of c2
  end.

(** ** The symbol table (main.c, lines 23-33) *)

Record MorseMap := { morse : string; letter : ascii }.

Definition mm (m : string) (l : ascii) : MorseMap := {| morse := m; letter := l |}.

Definition morse_table : list MorseMap :=
  [ mm ".-" "A"; mm "-..." "B"; mm "-.-." "C"; mm "-.." "D"; mm "." "E";
    mm "..-." "F"; mm "--." "G"; mm "...." "H"; mm ".." "I"; mm ".---" "J";
    mm "-.-" "K"; mm ".-.." "L"; mm "--" "M"; mm "-." "N"; mm "---" "O";
    mm ".--." "P"; mm "--.-" "Q"; mm ".-." "R"; mm "..." "S"; mm "-" "T";
    mm "..-" "U"; mm "...-" "V"; mm ".--" "W"; mm "-..-" "X"; mm "-.--" "Y";
    mm "--.." "Z"; mm "-----" "0"; mm ".----" "1"; mm "..---" "2"; mm "...--" "3";
    mm "....-" "4"; mm "....." "5"; mm "-...." "6"; mm "--..." "7"; mm "---.." "8";
    mm "----." "9" ].

(** The loop of [morse_to_char] from entry [i] on: the first entry whose
    code compares equal decides, and '?' is returned past the last one. *)
Fixpoint morse_to_char_from (tbl : list MorseMap) (code : string) : ascii :=
  match tbl with
  | [] => "?"%char
  | e :: rest =>
      if decide (strcmp (morse e) code = 0) then letter e
      else morse_to_char_from rest code
  end.

(** main.c, lines 36-40. *)
Definition morse_to_char (code : string) : ascii :=
  morse_to_char_from morse_table code.

Definition table_codes : list string := morse <$> morse_table.

Definition dot_or_dash (c : ascii) : Prop := c = "."%char ∨ c = "-"%char.

Global Instance dot_or_dash_dec c : Decision (dot_or_dash c).
Proof. unfold dot_or_dash. apply _. Defined.

Definition no_nul (s : string) : Prop := Forall (λ c, c ≠ NUL) (list_ascii_of_string s).

Global Instance no_nul_dec s : Decision (no_nul s).
Proof. unfold no_nul. apply _. Defined.

(** ** [int] arithmetic *)

Definition add (a b : Z) : Z := wrap (a + b).
Definition sub (a b : Z) : Z := wrap (a - b).
Definition mul (a b : Z) : Z := wrap (a * b).

(** ** [char] arrays *)

(** [buf[i] = c]; defined only for [0 <= i < length buf]. *)
Definition store (buf : list ascii) (i : Z) (c : ascii) : option (list ascii) :=
  if decide (0 ≤ i < Z.of_nat (length buf)) then Some (<[Z.to_nat i := c]> buf) else None.

(** The string a [%s] or a [const char *] parameter sees in an array: the
    characters before the first NUL; no NUL within the array is a read past
    its end. *)
Fixpoint read_cstr (buf : list ascii) : option string :=
  match buf with
  | [] => None
  | c :: r => if decide (c = NUL) then Some EmptyString else String c <$> read_cstr r
  end.

(** ** The receiver (app_main, lines 75-136) *)

Definition SAMPLE_MS : Z := 10.
Definition threshold : Z := 40.
Definition hysteresis : Z := 5.
Definition dot : Z := 50.

Inductive edge := OFF | ON.

Global Instance edge_eq_dec : EqDecision edge.
Proof. solve_decision. Defined.

(** The locals of [app_main] that live across iterations of the loop. *)
Record Locals := {
  letter_buf : list ascii;
  lidx : Z;
  word_buf : list ascii;
  widx : Z;
  state : edge;
  duration : Z
}.

(** What the loop writes to the log. *)
Inductive Log := Decoded_Word (text : string).

Definition with_timer (st : edge) (d : Z) (s : Locals) : Locals :=
  {| letter_buf := letter_buf s; lidx := lidx s;
     word_buf := word_buf s; widx := widx s;
     state := st; duration := d |}.

(** Lines 85-89.  The arrays are not initialised: their first contents
    [lb] and [wb] are whatever the stack holds. *)
Definition app_main_init (lb wb : list ascii) : Locals :=
  {| letter_buf := lb; lidx := 0; word_buf := wb; widx := 0;
     state := OFF; duration := 0 |}.

(** Line 96. *)
Definition led_on (s : Locals) (volt : Z) : bool :=
  match state s with
  | OFF => bool_decide (volt > add threshold hysteresis)
  | ON => bool_decide (volt > sub threshold hysteresis)
  end.

(** Lines 102-107 and, again, 114-119: terminate the letter, look it up,
    push the character on the word. *)
Definition close_letter (s : Locals) : option Locals :=
  if decide (lidx s > 0) then
    lb ← store (letter_buf s) (lidx s) NUL;
    code ← read_cstr lb;
    wb ← store (word_buf s) (widx s) (morse_to_char code);
    Some {| letter_buf := lb; lidx := 0;
            word_buf := wb; widx := add (widx s) 1;
            state := state s; duration := duration s |}
  else Some s.

(** Lines 108-112: terminate the word, log it, start a new one. *)
Definition log_word (s : Locals) : option (Locals * list Log) :=
  if decide (widx s > 0) then
    wb ← store (word_buf s) (widx s) NUL;
    text ← read_cstr wb;
    Some ({| letter_buf := letter_buf s; lidx := lidx s;
             word_buf := wb; widx := 0;
             state := state s; duration := duration s |},
          [Decoded_Word text])
  else Some (s, []).

(** Lines 101-120: the gap that a rising edge ends. *)
Definition check_gaps (s : Locals) : option (Locals * list Log) :=
  if decide (duration s >= mul 5 dot) then
    s1 ← close_letter s; log_word s1
  else if decide (duration s >= mul 2 dot) then
    s1 ← close_letter s; Some (s1, [])
  else Some (s, []).

(** Line 128: the pulse that a falling edge ends. *)
Definition symbol_of (d : Z) : ascii :=
  if decide (d < mul 2 dot) then "."%char else "-"%char.

Definition record_symbol (s : Locals) : option Locals :=
  lb ← store (letter_buf s) (lidx s) (symbol_of (duration s));
  Some {| letter_buf := lb; lidx := add (lidx s) 1;
          word_buf := word_buf s; widx := widx s;
          state := state s; duration := duration s |}.

(** Lines 99-122: what a rising edge does before the state changes. *)
Definition rising_edge (s : Locals) : option (Locals * list Log) :=
  r ← check_gaps s; Some (with_timer (state s) 0 r.1, r.2).

(** Lines 126-130: what a falling edge does before the state changes. *)
Definition falling_edge (s : Locals) : option Locals :=
  s1 ← record_symbol s; Some (with_timer (state s) 0 s1).

(** Lines 96-133: one iteration of [while(1)] on the reading [volt]. *)
Definition loop_body (volt : Z) (s : Locals) : option (Locals * list Log) :=
  if led_on s volt then
    r ← match state s with
        | OFF => rising_edge s
        | ON => Some (s, [])
        end;
    Some (with_timer ON (add (duration r.1) SAMPLE_MS) r.1, r.2)
  else
    s1 ← match state s with
         | ON => falling_edge s
         | OFF => Some s
         end;
    Some (with_timer OFF (add (duration s1) SAMPLE_MS) s1, []).

(** The loop on a finite run of readings, with everything it logged. *)
Fixpoint run (volts : list Z) (s : Locals) : option (Locals * list Log) :=
  match volts with
  | [] => Some (s, [])
  | v :: rest =>
      r1 ← loop_body v s;
      r2 ← run rest r1.1;
      Some (r2.1, r1.2 ++ r2.2)
  end.

(** [n] iterations on the same reading, for runs too long to list. *)
Definition idle (volt : Z) (n : N) (s : Locals) : option Locals :=
  N.iter n (λ o, s1 ← o; fst <$> loop_body volt s1) (Some s).

(** The logical contents of the two buffers. *)
Definition letter_text (s : Locals) : list ascii := take (Z.to_nat (lidx s)) (letter_buf s).
Definition word_text (s : Locals) : list ascii := take (Z.to_nat (widx s)) (word_buf s).

(** What holds of the locals whenever the loop is at the top of an
    iteration it reached without a fault. *)
Record wf (s : Locals) : Prop := {
  wf_letter_len : length (letter_buf s) = 16%nat;
  wf_word_len : length (word_buf s) = 64%nat;
  wf_lidx : 0 ≤ lidx s ≤ 16;
  wf_widx : 0 ≤ widx s ≤ 64;
  wf_letter : Forall dot_or_dash (letter_text s);
  wf_word : Forall (λ c, c ≠ NUL) (word_text s)
}.

(** The character that closing the pending letter of [s] yields. *)
Definition letter_char (s : Locals) : ascii :=
  morse_to_char (string_of_list_ascii (letter_text s)).

(** The characters of the word once the pending letter, if there is one,
    has been closed into it. *)
Definition word_with_pending (s : Locals) : list ascii :=
  word_text s ++ (if decide (0 < lidx s) then [letter_char s] else []).

(** ** Test signals *)

(** [on] samples of a lit LED (50 mV), then [off] samples of a dark one. *)
Definition pulse (on off : nat) : list Z := replicate on 50 ++ replicate off 0.

(** A start on a zeroed stack. *)
Definition zeroed : Locals := app_main_init (replicate 16 NUL) (replicate 64 NUL).

(** ** What a run shows *)

(** The characters [morse_to_char] can return. *)
Definition decoded_char (c : ascii) : Prop :=
  c = "?"%char ∨ c ∈ (letter <$> morse_table).

Global Instance decoded_char_dec c : Decision (decoded_char c).
Proof. unfold decoded_char. apply _. Defined.

Definition well_formed_word (w : Log) : Prop :=
  match w with
  | Decoded_Word text =>
      (1 ≤ String.length text ≤ 63)%nat
      ∧ Forall decoded_char (list_ascii_of_string text)
  end.

(** What the loop can still read of its locals: the indices, the state,
    the count and the characters below the indices.  The cells from the
    indices on are written before they are read. *)
Definition view (s : Locals) : Z * Z * edge * Z * list ascii * list ascii :=
  (lidx s, widx s, state s, duration s, letter_text s, word_text s).

(** The reading that keeps the current state: no edge. *)
Definition steady (s : Locals) (volt : Z) : Prop :=
  match state s with
  | OFF => volt ≤ threshold + hysteresis
  | ON => volt > threshold - hysteresis
  end.

(** ** Keyed signals *)

(** The two levels, and the lengths in samples, with which a text is keyed. *)
Record Keying := {
  hi : Z; lo : Z;
  n_dot : nat; n_dash : nat;
  g_intra : nat; g_letter : nat; g_word : nat
}.

(** A keying that the thresholds of [app_main] tell apart. *)
Record well_timed (k : Keying) : Prop := {
  wt_hi : hi k > threshold + hysteresis;
  wt_lo : lo k ≤ threshold - hysteresis;
  wt_dot : 0 < SAMPLE_MS * Z.of_nat (n_dot k) < 2 * dot;
  wt_dash : 2 * dot ≤ SAMPLE_MS * Z.of_nat (n_dash k) ≤ INT_MAX;
  wt_intra : 0 < SAMPLE_MS * Z.of_nat (g_intra k) < 2 * dot;
  wt_letter : 2 * dot ≤ SAMPLE_MS * Z.of_nat (g_letter k) < 5 * dot;
  wt_word : 5 * dot ≤ SAMPLE_MS * Z.of_nat (g_word k) ≤ INT_MAX
}.

Definition key_symbol (k : Keying) (c : ascii) : list Z :=
  replicate (if decide (c = "."%char) then n_dot k else n_dash k) (hi k).

(** The symbols of one letter, an intra-letter gap between them and [gap]
    dark samples after the last. *)
Fixpoint key_code (k : Keying) (code : list ascii) (gap : nat) : list Z :=
  match code with
  | [] => []
  | c :: rest =>
      key_symbol k c
      ++ match rest with
         | [] => replicate gap (lo k)
         | _ :: _ => replicate (g_intra k) (lo k) ++ key_code k rest gap
         end
  end.

(** The letters of one word, a letter gap between them and a word gap after
    the last. *)
Fixpoint key_word (k : Keying) (codes : list string) : list Z :=
  match codes with
  | [] => []
  | m :: rest =>
      match rest with
      | [] => key_code k (list_ascii_of_string m) (g_word k)
      | _ :: _ =>
          key_code k (list_ascii_of_string m) (g_letter k) ++ key_word k rest
      end
  end.

Definition key_message (k : Keying) (words : list (list string)) : list Z :=
  concat (key_word k <$> words).

(** A code the loop can hold and close: 1 to 15 dots and dashes. *)
Definition keyable (m : string) : Prop :=
  (1 ≤ String.length m ≤ 15)%nat ∧ Forall dot_or_dash (list_ascii_of_string m).

Global Instance MorseMap_eq_dec : EqDecision MorseMap.
Proof. solve_decision. Defined.

(** The keying of the sample runs: dots of 50 ms, dashes and letter gaps of
    150 ms, word gaps of 350 ms, at 50 mV and 0 mV. *)
Definition standard_keying : Keying :=
  {| hi := 50; lo := 0; n_dot := 5; n_dash := 15;
     g_intra := 5; g_letter := 15; g_word := 35 |}.

(** ** Calibration and sampling (lines 43-54, 66-75 and 92-93) *)

Definition esp_err_t : Type := Z.
Definition ESP_OK : esp_err_t := 0.

(** A calibration handle is a pointer; [NULL] is 0. *)
Definition adc_cali_handle_t : Type := Z.
Definition NULL : adc_cali_handle_t := 0.

(** What [adc_cali_create_scheme_curve_fitting] or [..._line_fitting] does
    with the handle it is given the address of: its return code and the
    handle it leaves there.  The configuration it is called with is fixed. *)
Definition cali_create : Type := adc_cali_handle_t → esp_err_t * adc_cali_handle_t.

Inductive scheme := Curve_fitting | Line_fitting.

(** Lines 43-54.  [curve] and [line] are the create functions of the schemes
    the target supports ([#if ADC_CALI_SCHEME_..._SUPPORTED]), [None] for a
    scheme it does not.  The result is [ok], the handle stored through
    [handle], and the schemes whose create function was called, in order. *)
Definition adc_calib_init (curve line : option cali_create)
    : bool * adc_cali_handle_t * list scheme :=
  let after_curve :=
    match curve with
    | Some create =>
        let r := create NULL in
        (bool_decide (r.1 = ESP_OK), r.2, [Curve_fitting])
    | None => (false, NULL, [])
    end in
  match line with
  | Some create =>
      if after_curve.1.1 then after_curve
      else
        let r := create after_curve.1.2 in
        (bool_decide (r.1 = ESP_OK), r.2, after_curve.2 ++ [Line_fitting])
  | None => after_curve
  end.

(** What the two ADC calls of one iteration deliver: the return code and
    the raw value of [adc_oneshot_read], the return code and the millivolts
    of [adc_cali_raw_to_voltage]. *)
Record Sample := {
  read_err : esp_err_t;
  adc_raw : Z;
  cali_err : esp_err_t;
  cali_mv : Z
}.

(** Lines 92-93.  [ESP_ERROR_CHECK] ends the program on any code but
    [ESP_OK]; without calibration [volt] is left as it was. *)
Definition read_volt (do_calib : bool) (x : Sample) (volt : Z) : option Z :=
  if decide (read_err x = ESP_OK) then
    if do_calib then
      if decide (cali_err x = ESP_OK) then Some (cali_mv x) else None
    else Some volt
  else None.

(** Lines 91-136 on a finite run of samples: the last [volt], the locals
    and the words logged. *)
Fixpoint sampling_loop (do_calib : bool) (xs : list Sample) (volt : Z)
    (s : Locals) : option (Z * Locals * list Log) :=
  match xs with
  | [] => Some (volt, s, [])
  | x :: rest =>
      v ← read_volt do_calib x volt;
      r1 ← loop_body v s;
      r2 ← sampling_loop do_calib rest v r1.1;
      Some (r2.1, r1.2 ++ r2.2)
  end.

(** Lines 64-136.  [new_unit_err] and [config_err] are the return codes of
    [adc_oneshot_new_unit] and [adc_oneshot_config_channel]. *)
Definition app_main (new_unit_err config_err : esp_err_t)
    (curve line : option cali_create) (lb wb : list ascii) (xs : list Sample)
    : option (Z * Locals * list Log) :=
  if decide (new_unit_err = ESP_OK) then
    if decide (config_err = ESP_OK) then
      sampling_loop (adc_calib_init curve line).1.1 xs 0 (app_main_init lb wb)
    else None
  else None.

(** A create function that fails, or a scheme the target lacks. *)
Definition unavailable (create : option cali_create) : Prop :=
  match create with
  | Some f => ∀ h, (f h).1 ≠ ESP_OK
  | None => True
  end.

(** ** Machine integers: lemmas *)

Lemma wrap_id z : in_int z → wrap z = z.
Proof.
  unfold in_int, INT_MIN, INT_MAX, wrap. intros H.
  rewrite Z.mod_small; lia.
Qed.

Lemma wrap_in_int z : in_int (wrap z).
Proof.
  unfold in_int, INT_MIN, INT_MAX, wrap.
  pose proof (Z.mod_pos_bound (z + 2147483648) 4294967296). lia.
Qed.

Lemma word_gap_ms : mul 5 dot = 250.
Proof. reflexivity. Qed.

Lemma letter_gap_ms : mul 2 dot = 100.
Proof. reflexivity. Qed.

(** ** C strings: lemmas *)

Lemma code_of_inj c1 c2 : code_of c1 = code_of c2 → c1 = c2.
Proof.
  unfold code_of. intros H. apply N2Z.inj in H.
  rewrite <- (ascii_N_embedding c1), <- (ascii_N_embedding c2). by rewrite H.
Qed.

Lemma code_of_NUL c : code_of c = 0 ↔ c = NUL.
Proof.
  split; [intros H; by apply code_of_inj | by intros ->].
Qed.

Lemma cstr_no_nul s : no_nul s → cstr s = s.
Proof.
  unfold no_nul. induction s as [|c r IH]; simpl; [done|].
  intros H. inversion_clear H as [|? ? Hc Hr].
  rewrite decide_False by done. by rewrite IH.
Qed.

(** [strcmp] answers 0 exactly on equal C strings. *)
Lemma strcmp_0 s1 s2 : strcmp s1 s2 = 0 ↔ cstr s1 = cstr s2.
Proof.
  revert s2. induction s1 as [|c1 r1 IH]; intros [|c2 r2]; simpl.
  - done.
  - case_decide as Hc.
    + subst. by rewrite (proj2 (code_of_NUL NUL)).
    + split; [|done]. intros H. destruct Hc. apply code_of_NUL. lia.
  - case_decide as Hc.
    + subst. by rewrite (proj2 (code_of_NUL NUL)).
    + split; [|done]. intros H. destruct Hc. apply code_of_NUL. lia.
  - destruct (decide (c1 = c2)) as [->|Hne].
    + destruct (decide (c2 = NUL)); [done|].
      rewrite IH. split; [by intros ->|congruence].
    + split.
      * intros H. destruct Hne. apply code_of_inj. lia.
      * repeat case_decide; congruence.
Qed.

(** ** The lookup: lemmas *)

Lemma morse_to_char_from_miss tbl code :
  Forall (λ e, cstr (morse e) ≠ cstr code) tbl →
  morse_to_char_from tbl code = "?"%char.
Proof.
  induction 1 as [|e rest He _ IH]; simpl; [done|].
  rewrite decide_False; [done|]. by rewrite strcmp_0.
Qed.

Lemma table_codes_no_nul : Forall no_nul table_codes.
Proof. apply (bool_decide_unpack _). by vm_compute. Qed.

Lemma table_codes_NoDup : NoDup table_codes.
Proof. apply (bool_decide_unpack _). by vm_compute. Qed.

Lemma morse_to_char_miss code :
  cstr code ∉ table_codes → morse_to_char code = "?"%char.
Proof.
  intros Hnot. apply morse_to_char_from_miss.
  apply Forall_forall. intros e He Heq. apply Hnot.
  apply list_elem_of_In in He.
  assert (morse e ∈ table_codes) as Hin.
  { unfold table_codes. apply list_elem_of_fmap. by exists e. }
  rewrite <- Heq. rewrite cstr_no_nul; [done|].
  by apply (proj1 (list.Forall_forall _ _) table_codes_no_nul).
Qed.

(** The codes are at most five symbols long and use no other character. *)
Lemma table_codes_shape :
  Forall (λ m, (1 ≤ String.length m ≤ 5)%nat
               ∧ Forall dot_or_dash (list_ascii_of_string m)) table_codes.
Proof. apply (bool_decide_unpack _). by vm_compute. Qed.

(** ** [char] arrays: lemmas *)

Lemma store_Some buf i c :
  0 ≤ i < Z.of_nat (length buf) → store buf i c = Some (<[Z.to_nat i := c]> buf).
Proof. intros H. unfold store. by rewrite decide_True. Qed.

Lemma store_None buf i c :
  ¬ (0 ≤ i < Z.of_nat (length buf)) → store buf i c = None.
Proof. intros H. unfold store. by rewrite decide_False. Qed.

Lemma store_inv buf i c buf' :
  store buf i c = Some buf' →
  0 ≤ i < Z.of_nat (length buf) ∧ buf' = <[Z.to_nat i := c]> buf.
Proof. unfold store. case_decide; [|done]. by intros [= <-]. Qed.

(** Once [buf[n]] holds the terminator, the string read from [buf] is its
    first [n] characters, as long as none of them is NUL. *)
Lemma read_cstr_terminated buf n :
  Forall (λ c, c ≠ NUL) (take n buf) → (n < length buf)%nat →
  read_cstr (<[n := NUL]> buf) = Some (string_of_list_ascii (take n buf)).
Proof.
  revert n. induction buf as [|c r IH]; intros [|n]; simpl; try lia.
  - done.
  - intros H Hn. inversion_clear H as [|? ? Hc Hr].
    case_decide; [done|]. rewrite IH; [done|done|lia].
Qed.

Lemma take_S_insert (buf : list ascii) n c :
  (n < length buf)%nat → take (S n) (<[n := c]> buf) = take n buf ++ [c].
Proof.
  intros Hn. rewrite (take_S_r _ _ c) by by apply list_lookup_insert_eq.
  by rewrite take_insert_ge.
Qed.

Lemma symbol_of_dot_or_dash d : dot_or_dash (symbol_of d).
Proof. unfold symbol_of, dot_or_dash. case_decide; auto. Qed.

Lemma dot_or_dash_not_NUL c : dot_or_dash c → c ≠ NUL.
Proof. by intros [-> | ->]. Qed.

Lemma morse_to_char_from_range tbl code :
  morse_to_char_from tbl code = "?"%char
  ∨ morse_to_char_from tbl code ∈ (letter <$> tbl).
Proof.
  induction tbl as [|e rest IH]; simpl; [by left|].
  case_decide.
  - right. apply list_elem_of_here.
  - destruct IH as [IH|IH]; [by left|right]. by apply list_elem_of_further.
Qed.

Lemma morse_to_char_not_NUL code : morse_to_char code ≠ NUL.
Proof.
  unfold morse_to_char.
  destruct (morse_to_char_from_range morse_table code) as [-> | Hin]; [done|].
  assert (Forall (λ c, c ≠ NUL) (letter <$> morse_table)) as Hall.
  { apply (bool_decide_unpack _). by vm_compute. }
  by apply (proj1 (list.Forall_forall _ _) Hall).
Qed.

(** ** The receiver: lemmas on the parts of an iteration *)

Lemma add_small a b : in_int (a + b) → add a b = a + b.
Proof. apply wrap_id. Qed.

Lemma in_int_range a : -2147483648 ≤ a ≤ 2147483647 → in_int a.
Proof. done. Qed.

Lemma wf_with_timer st d s : wf s → wf (with_timer st d s).
Proof. by intros []. Qed.

Lemma letter_text_record (s : Locals) c :
  0 ≤ lidx s < Z.of_nat (length (letter_buf s)) →
  take (Z.to_nat (lidx s + 1)) (<[Z.to_nat (lidx s) := c]> (letter_buf s))
  = letter_text s ++ [c].
Proof.
  intros H. replace (Z.to_nat (lidx s + 1)) with (S (Z.to_nat (lidx s))) by lia.
  apply take_S_insert. lia.
Qed.

Lemma word_text_push (s : Locals) c :
  0 ≤ widx s < Z.of_nat (length (word_buf s)) →
  take (Z.to_nat (widx s + 1)) (<[Z.to_nat (widx s) := c]> (word_buf s))
  = word_text s ++ [c].
Proof.
  intros H. replace (Z.to_nat (widx s + 1)) with (S (Z.to_nat (widx s))) by lia.
  apply take_S_insert. lia.
Qed.

(** With room in the array, the falling edge records its symbol. *)
Lemma record_symbol_room s :
  0 ≤ lidx s < Z.of_nat (length (letter_buf s)) → lidx s < INT_MAX →
  record_symbol s
  = Some {| letter_buf := <[Z.to_nat (lidx s) := symbol_of (duration s)]> (letter_buf s);
            lidx := lidx s + 1;
            word_buf := word_buf s; widx := widx s;
            state := state s; duration := duration s |}.
Proof.
  intros H Hmax. unfold record_symbol. rewrite store_Some by done. simpl.
  rewrite add_small; [done|]. unfold INT_MAX in Hmax. apply in_int_range. lia.
Qed.

(** Without room the store is outside [letter_buf]. *)
Lemma record_symbol_full s :
  ¬ (0 ≤ lidx s < Z.of_nat (length (letter_buf s))) → record_symbol s = None.
Proof. intros H. unfold record_symbol. by rewrite store_None. Qed.

Lemma close_letter_idle s : lidx s ≤ 0 → close_letter s = Some s.
Proof. intros H. unfold close_letter. rewrite decide_False; [done|lia]. Qed.

Lemma close_letter_pending s :
  wf s → 0 < lidx s < 16 → widx s < 64 →
  close_letter s
  = Some {| letter_buf := <[Z.to_nat (lidx s) := NUL]> (letter_buf s);
            lidx := 0;
            word_buf := <[Z.to_nat (widx s) := letter_char s]> (word_buf s);
            widx := widx s + 1;
            state := state s; duration := duration s |}.
Proof.
  intros [Hll Hwl Hl Hw Hlt Hwt] Hlidx Hwidx. unfold close_letter.
  rewrite decide_True by lia.
  rewrite store_Some by (rewrite Hll; lia). simpl.
  rewrite read_cstr_terminated; [simpl| |lia].
  - rewrite store_Some by (rewrite Hwl; lia). simpl.
    rewrite add_small; [done|]. apply in_int_range. lia.
  - eapply List.Forall_impl; [|exact Hlt]. intros c. apply dot_or_dash_not_NUL.
Qed.

Lemma close_letter_full s :
  length (letter_buf s) = 16%nat → 16 ≤ lidx s → close_letter s = None.
Proof.
  intros Hll H. unfold close_letter. rewrite decide_True by lia.
  rewrite store_None; [done|]. rewrite Hll. lia.
Qed.

Lemma log_word_idle s : widx s ≤ 0 → log_word s = Some (s, []).
Proof. intros H. unfold log_word. rewrite decide_False; [done|lia]. Qed.

Lemma log_word_pending s :
  length (word_buf s) = 64%nat → 0 < widx s < 64 →
  Forall (λ c, c ≠ NUL) (word_text s) →
  log_word s
  = Some ({| letter_buf := letter_buf s; lidx := lidx s;
             word_buf := <[Z.to_nat (widx s) := NUL]> (word_buf s); widx := 0;
             state := state s; duration := duration s |},
          [Decoded_Word (string_of_list_ascii (word_text s))]).
Proof.
  intros Hwl Hw Hwt. unfold log_word. rewrite decide_True by lia.
  rewrite store_Some by (rewrite Hwl; lia). simpl.
  rewrite read_cstr_terminated; [done|done|lia].
Qed.

Lemma log_word_full s :
  length (word_buf s) = 64%nat → 64 ≤ widx s → log_word s = None.
Proof.
  intros Hwl H. unfold log_word. rewrite decide_True by lia.
  rewrite store_None; [done|]. rewrite Hwl. lia.
Qed.

(** ** The invariant of the loop *)

Lemma wf_init lb wb :
  length lb = 16%nat → length wb = 64%nat → wf (app_main_init lb wb).
Proof. intros Hl Hw. split; simpl; try done; unfold letter_text, word_text; simpl; constructor. Qed.

Lemma wf_record_symbol s s' : wf s → record_symbol s = Some s' → wf s'.
Proof.
  intros [Hll Hwl Hl Hw Hlt Hwt] Hrec. unfold record_symbol in Hrec.
  destruct (store _ _ _) as [lb|] eqn:Hst; [|done]. simpl in Hrec.
  apply store_inv in Hst as [Hi ->]. injection Hrec as <-.
  rewrite Hll in Hi.
  assert (add (lidx s) 1 = lidx s + 1) as Hadd.
  { apply add_small, in_int_range. lia. }
  split; simpl; rewrite ?Hadd, ?length_insert; try done; try lia.
  unfold letter_text. simpl. rewrite ?Hadd.
  rewrite letter_text_record by (rewrite Hll; lia).
  apply Forall_app. split; [done|]. constructor; [|done].
  apply symbol_of_dot_or_dash.
Qed.

Lemma wf_close_letter s s' : wf s → close_letter s = Some s' → wf s'.
Proof.
  intros Hwf Hcl. pose proof Hwf as [Hll Hwl Hl Hw Hlt Hwt].
  unfold close_letter in Hcl. case_decide as Hpos; [|by injection Hcl as <-].
  destruct (store (letter_buf s) _ _) as [lb|] eqn:Hst; [|done]. simpl in Hcl.
  destruct (read_cstr lb) as [code|]; [|done]. simpl in Hcl.
  destruct (store (word_buf s) _ _) as [wb|] eqn:Hsw; [|done]. simpl in Hcl.
  apply store_inv in Hst as [Hi ->]. apply store_inv in Hsw as [Hj ->].
  injection Hcl as <-. rewrite Hll in Hi. rewrite Hwl in Hj.
  assert (add (widx s) 1 = widx s + 1) as Hadd.
  { apply add_small, in_int_range. lia. }
  split; simpl; rewrite ?Hadd, ?length_insert; try done; try lia.
  unfold word_text. simpl. rewrite ?Hadd.
  rewrite word_text_push by (rewrite Hwl; lia).
  apply Forall_app. split; [done|]. constructor; [|done].
  apply morse_to_char_not_NUL.
Qed.

Lemma wf_log_word s s' out : wf s → log_word s = Some (s', out) → wf s'.
Proof.
  intros Hwf Hlog. pose proof Hwf as [Hll Hwl Hl Hw Hlt Hwt].
  unfold log_word in Hlog. case_decide as Hpos; [|by injection Hlog as <- _].
  destruct (store (word_buf s) _ _) as [wb|] eqn:Hsw; [|done]. simpl in Hlog.
  destruct (read_cstr wb) as [text|]; [|done]. simpl in Hlog.
  apply store_inv in Hsw as [Hj ->]. injection Hlog as <- _.
  split; simpl; rewrite ?length_insert; done.
Qed.

Lemma wf_check_gaps s s' out : wf s → check_gaps s = Some (s', out) → wf s'.
Proof.
  intros Hwf Hg. unfold check_gaps in Hg.
  case_decide; [|case_decide].
  - destruct (close_letter s) as [s1|] eqn:Hcl; [|done]. simpl in Hg.
    eapply wf_log_word; [|exact Hg]. by eapply wf_close_letter.
  - destruct (close_letter s) as [s1|] eqn:Hcl; [|done]. simpl in Hg.
    injection Hg as <- _. by eapply wf_close_letter.
  - by injection Hg as <- _.
Qed.

(** An iteration that ends without a fault leaves the buffers within
    their arrays. *)
Lemma wf_loop_body volt s s' out :
  wf s → loop_body volt s = Some (s', out) → wf s'.
Proof.
  intros Hwf Hb. unfold loop_body, rising_edge, falling_edge in Hb.
  destruct (led_on s volt), (state s); simpl in Hb.
  - destruct (check_gaps s) as [[s1 o1]|] eqn:Hg; [|done]. simpl in Hb.
    injection Hb as <- _. apply wf_with_timer, wf_with_timer.
    by eapply wf_check_gaps.
  - injection Hb as <- _. by apply wf_with_timer.
  - injection Hb as <- _. by apply wf_with_timer.
  - destruct (record_symbol s) as [s1|] eqn:Hr; [|done]. simpl in Hb.
    injection Hb as <- _. apply wf_with_timer, wf_with_timer.
    by eapply wf_record_symbol.
Qed.

Lemma wf_run volts s s' out :
  wf s → run volts s = Some (s', out) → wf s'.
Proof.
  revert s out. induction volts as [|v rest IH]; simpl; intros s out Hwf Hr.
  - by injection Hr as <- _.
  - destruct (loop_body v s) as [[s1 o1]|] eqn:Hb; [|done]. simpl in Hr.
    destruct (run rest s1) as [[s2 o2]|] eqn:Hrest; [|done]. simpl in Hr.
    injection Hr as <- _. eapply IH; [|exact Hrest]. by eapply wf_loop_body.
Qed.

(** From startup, whatever the arrays held, a run that ends without a fault
    ends with at most 16 symbols and at most 64 characters in place. *)
Lemma run_from_startup lb wb volts s out :
  length lb = 16%nat → length wb = 64%nat →
  run volts (app_main_init lb wb) = Some (s, out) →
  0 ≤ lidx s ≤ 16 ∧ 0 ≤ widx s ≤ 64
  ∧ length (letter_buf s) = 16%nat ∧ length (word_buf s) = 64%nat.
Proof.
  intros Hlb Hwb Hrun.
  by destruct (wf_run _ _ _ _ (wf_init lb wb Hlb Hwb) Hrun).
Qed.

(** ** The four ways through an iteration *)

Lemma led_on_OFF s volt :
  state s = OFF → led_on s volt = bool_decide (volt > threshold + hysteresis).
Proof. intros H. unfold led_on. by rewrite H. Qed.

Lemma led_on_ON s volt :
  state s = ON → led_on s volt = bool_decide (volt > threshold - hysteresis).
Proof. intros H. unfold led_on. by rewrite H. Qed.

Lemma loop_body_rising s volt :
  state s = OFF → volt > threshold + hysteresis →
  loop_body volt s = (r ← check_gaps s; Some (with_timer ON SAMPLE_MS r.1, r.2)).
Proof.
  intros Hst Hv. unfold loop_body, rising_edge. rewrite led_on_OFF, Hst by done.
  rewrite bool_decide_eq_true_2 by done.
  by destruct (check_gaps s) as [[s1 o1]|].
Qed.

Lemma loop_body_lit s volt :
  state s = ON → volt > threshold - hysteresis →
  loop_body volt s = Some (with_timer ON (add (duration s) SAMPLE_MS) s, []).
Proof.
  intros Hst Hv. unfold loop_body. rewrite led_on_ON, Hst by done.
  by rewrite bool_decide_eq_true_2 by done.
Qed.

Lemma loop_body_falling s volt :
  state s = ON → volt ≤ threshold - hysteresis →
  loop_body volt s = (s1 ← record_symbol s; Some (with_timer OFF SAMPLE_MS s1, [])).
Proof.
  intros Hst Hv. unfold loop_body, falling_edge. rewrite led_on_ON, Hst by done.
  rewrite bool_decide_eq_false_2 by lia.
  by destruct (record_symbol s) as [s1|].
Qed.

Lemma loop_body_dark s volt :
  state s = OFF → volt ≤ threshold + hysteresis →
  loop_body volt s = Some (with_timer OFF (add (duration s) SAMPLE_MS) s, []).
Proof.
  intros Hst Hv. unfold loop_body. rewrite led_on_OFF, Hst by done.
  by rewrite bool_decide_eq_false_2 by lia.
Qed.

Lemma check_gaps_short s : duration s < 2 * dot → check_gaps s = Some (s, []).
Proof.
  intros H. unfold check_gaps. rewrite word_gap_ms, letter_gap_ms.
  unfold dot in H. by rewrite !decide_False by lia.
Qed.

Lemma check_gaps_letter s :
  2 * dot ≤ duration s < 5 * dot →
  check_gaps s = (s1 ← close_letter s; Some (s1, [])).
Proof.
  intros H. unfold check_gaps. rewrite word_gap_ms, letter_gap_ms.
  unfold dot in H. rewrite decide_False by lia. by rewrite decide_True by lia.
Qed.

Lemma check_gaps_word s :
  5 * dot ≤ duration s → check_gaps s = (s1 ← close_letter s; log_word s1).
Proof.
  intros H. unfold check_gaps. rewrite word_gap_ms.
  unfold dot in H. by rewrite decide_True by lia.
Qed.

(** Only the word-gap branch logs, and it logs at most one word. *)
Lemma check_gaps_logs s s' out :
  check_gaps s = Some (s', out) → out ≠ [] →
  5 * dot ≤ duration s ∧ ∃ text, out = [Decoded_Word text].
Proof.
  unfold check_gaps. rewrite word_gap_ms.
  case_decide as Hd; [|case_decide].
  - intros Hg Hout. split; [unfold dot; lia|].
    destruct (close_letter s) as [s1|]; [|done]. simpl in Hg.
    unfold log_word in Hg. case_decide; [|by injection Hg as _ <-].
    destruct (store _ _ _) as [wb|]; [|done]. simpl in Hg.
    destruct (read_cstr wb) as [text|]; [|done]. simpl in Hg.
    injection Hg as _ <-. by exists text.
  - intros Hg Hout. destruct (close_letter s) as [s1|]; [|done].
    simpl in Hg. by injection Hg as _ <-.
  - intros Hg Hout. by injection Hg as _ <-.
Qed.

(** A word is logged by no iteration but one whose rising edge ends a
    gap of at least five dots. *)
Lemma loop_body_logs volt s s' out :
  loop_body volt s = Some (s', out) → out ≠ [] →
  state s = OFF ∧ volt > threshold + hysteresis ∧ 5 * dot ≤ duration s
  ∧ ∃ text, out = [Decoded_Word text].
Proof.
  intros Hb Hout. destruct (state s) eqn:Hst.
  - destruct (decide (volt > threshold + hysteresis)) as [Hv|Hv].
    + rewrite loop_body_rising in Hb by done.
      destruct (check_gaps s) as [[s1 o1]|] eqn:Hg; [|done]. simpl in Hb.
      injection Hb as _ <-.
      destruct (check_gaps_logs _ _ _ Hg Hout) as [Hd Htext]. done.
    + rewrite loop_body_dark in Hb by (done || lia). by injection Hb as _ <-.
  - destruct (decide (volt > threshold - hysteresis)) as [Hv|Hv].
    + rewrite loop_body_lit in Hb by done. by injection Hb as _ <-.
    + rewrite loop_body_falling in Hb by (done || lia).
      destruct (record_symbol s) as [s1|]; [|done]. simpl in Hb.
      by injection Hb as _ <-.
Qed.

(** ** The symbol table *)

Lemma morse_to_char_from_hit_in tbl code :
  cstr code ∈ (cstr ∘ morse <$> tbl) →
  ∃ e, e ∈ tbl ∧ cstr (morse e) = cstr code ∧ morse_to_char_from tbl code = letter e.
Proof.
  induction tbl as [|e rest IH]; simpl; intros Hin.
  - by apply not_elem_of_nil in Hin.
  - case_decide as Hcmp.
    + exists e. split; [apply list_elem_of_here|]. by rewrite <- strcmp_0.
    + apply elem_of_cons in Hin as [Heq|Hin].
      * destruct Hcmp. by rewrite strcmp_0.
      * destruct (IH Hin) as (e' & He' & Hc & Hm).
        exists e'. split; [by apply list_elem_of_further|done].
Qed.

(** C5.  [morse_to_char] on the table: the table has 36 entries, for the
    letters A to Z and the digits 0 to 9 in that order; looking up the code
    of an entry returns the character of that entry; a string whose
    characters up to the terminator are not a code of the table yields '?';
    the 36 codes are pairwise distinct, and each is one to five characters
    long, all of them '.' or '-'. *)
Theorem morse_to_char_table :
  length morse_table = 36%nat
  ∧ letter <$> morse_table
    = list_ascii_of_string "ABCDEFGHIJKLMNOPQRSTUVWXYZ0123456789"
  ∧ Forall (λ e, morse_to_char (morse e) = letter e) morse_table
  ∧ (∀ code, cstr code ∉ table_codes → morse_to_char code = "?"%char)
  ∧ NoDup table_codes
  ∧ Forall (λ m, (1 ≤ String.length m ≤ 5)%nat
                 ∧ Forall dot_or_dash (list_ascii_of_string m)) table_codes.
Proof.
  split; [done|]. split; [done|].
  split; [apply (bool_decide_unpack _); by vm_compute|].
  split; [apply morse_to_char_miss|].
  split; [apply table_codes_NoDup|apply table_codes_shape].
Qed.

Lemma morse_to_char_table_witness :
  morse_to_char ".-" = "A"%char ∧ morse_to_char "-.-.-" = "?"%char.
Proof.
  destruct morse_to_char_table as (_ & _ & Hhit & Hmiss & _ & _).
  split.
  - by inversion_clear Hhit.
  - apply Hmiss. apply (bool_decide_unpack _). by vm_compute.
Defined.

Lemma long_code_not_in_table m : (5 < String.length m)%nat → m ∉ table_codes.
Proof.
  intros Hlen Hin.
  pose proof (proj1 (list.Forall_forall _ _) table_codes_shape m Hin) as [? _].
  lia.
Qed.

Lemma foreign_code_not_in_table m :
  ¬ Forall dot_or_dash (list_ascii_of_string m) → m ∉ table_codes.
Proof.
  intros Hf Hin.
  by pose proof (proj1 (list.Forall_forall _ _) table_codes_shape m Hin) as [_ ?].
Qed.

(** C10.  [morse_to_char] answers on every string whatever, and its answer
    is a function of the characters before the terminator alone: the
    character of the table entry with that code when there is one, and '?'
    in every other case, among them the empty string, a string of more
    than five characters, and a string with a character other than '.'
    and '-'. *)
Theorem morse_to_char_any_string (code : string) :
  (cstr code ∈ table_codes →
     ∃ e, e ∈ morse_table ∧ morse e = cstr code ∧ morse_to_char code = letter e)
  ∧ (cstr code ∉ table_codes → morse_to_char code = "?"%char)
  ∧ (cstr code = EmptyString → morse_to_char code = "?"%char)
  ∧ ((5 < String.length (cstr code))%nat → morse_to_char code = "?"%char)
  ∧ (¬ Forall dot_or_dash (list_ascii_of_string (cstr code)) →
     morse_to_char code = "?"%char).
Proof.
  split; [|split; [|split; [|split]]].
  - intros Hin.
    destruct (morse_to_char_from_hit_in morse_table code) as (e & He & Hc & Hm).
    + assert (cstr ∘ morse <$> morse_table = table_codes) as -> by done.
      done.
    + exists e. split; [done|]. split; [|done].
      rewrite <- Hc. symmetry. apply cstr_no_nul.
      apply (proj1 (list.Forall_forall _ _) table_codes_no_nul).
      unfold table_codes. apply list_elem_of_fmap. by exists e.
  - apply morse_to_char_miss.
  - intros Hempty. apply morse_to_char_miss. rewrite Hempty.
    apply (bool_decide_unpack _). by vm_compute.
  - intros Hlen. by apply morse_to_char_miss, long_code_not_in_table.
  - intros Hf. by apply morse_to_char_miss, foreign_code_not_in_table.
Qed.

Lemma morse_to_char_any_string_witness :
  morse_to_char "......" = "?"%char ∧ morse_to_char "SOS" = "?"%char.
Proof.
  split.
  - destruct (morse_to_char_any_string "......") as (_ & _ & _ & Hlong & _).
    apply Hlong. simpl. lia.
  - destruct (morse_to_char_any_string "SOS") as (_ & _ & _ & _ & Hforeign).
    apply Hforeign. apply (bool_decide_unpack _). by vm_compute.
Defined.

(** ** Startup and the hysteresis band *)

(** C9.  [app_main] enters its loop with [state = OFF], [duration = 0] and
    both buffers empty, and on every reading the first iteration logs
    nothing and leaves both arrays and both indices as they were: it only
    sets the edge state and counts its own sample. *)
Theorem first_iteration_is_silent (lb wb : list ascii) (volt : Z) :
  let s0 := app_main_init lb wb in
  state s0 = OFF ∧ duration s0 = 0
  ∧ lidx s0 = 0 ∧ widx s0 = 0 ∧ letter_text s0 = [] ∧ word_text s0 = []
  ∧ loop_body volt s0
    = Some ({| letter_buf := lb; lidx := 0; word_buf := wb; widx := 0;
               state := if bool_decide (volt > threshold + hysteresis)
                        then ON else OFF;
               duration := SAMPLE_MS |}, []).
Proof.
  simpl. repeat (split; [done|]).
  destruct (decide (volt > threshold + hysteresis)) as [Hv|Hv].
  - rewrite loop_body_rising by done.
    rewrite check_gaps_short by done. simpl.
    by rewrite bool_decide_eq_true_2 by done.
  - rewrite loop_body_dark by (done || lia). simpl.
    by rewrite bool_decide_eq_false_2 by done.
Qed.

(** C7.  A rising edge that ends a gap shorter than two dots changes neither
    buffer nor index and logs nothing: the edge only resets the count, and
    the iteration ends in state [ON] with its own sample counted. *)
Theorem intra_letter_gap_is_ignored (s : Locals) (volt : Z) :
  state s = OFF → volt > threshold + hysteresis → duration s < 2 * dot →
  rising_edge s = Some (with_timer OFF 0 s, [])
  ∧ loop_body volt s
    = Some ({| letter_buf := letter_buf s; lidx := lidx s;
               word_buf := word_buf s; widx := widx s;
               state := ON; duration := 0 + SAMPLE_MS |}, []).
Proof.
  intros Hst Hv Hd. split.
  - unfold rising_edge. rewrite check_gaps_short by done. simpl. by rewrite Hst.
  - rewrite loop_body_rising by done. by rewrite check_gaps_short by done.
Qed.

Lemma intra_letter_gap_is_ignored_witness :
  let s := with_timer OFF 50 zeroed in
  rising_edge s = Some (with_timer OFF 0 s, [])
  ∧ loop_body 50 s
    = Some ({| letter_buf := letter_buf s; lidx := lidx s;
               word_buf := word_buf s; widx := widx s;
               state := ON; duration := 0 + SAMPLE_MS |}, []).
Proof.
  intros s. apply (intra_letter_gap_is_ignored s 50); [reflexivity|done|done].
Defined.



(** Closing a pending letter and logging the word right after, as the
    word-gap branch does. *)
Lemma close_then_log s :
  wf s → 0 < lidx s < 16 → widx s < 63 →
  (s1 ← close_letter s; log_word s1)
  = Some ({| letter_buf := <[Z.to_nat (lidx s) := NUL]> (letter_buf s);
             lidx := 0;
             word_buf := <[Z.to_nat (widx s + 1) := NUL]>
                           (<[Z.to_nat (widx s) := letter_char s]> (word_buf s));
             widx := 0;
             state := state s; duration := duration s |},
          [Decoded_Word (string_of_list_ascii (word_text s ++ [letter_char s]))]).
Proof.
  intros Hwf Hl Hw. pose proof Hwf as [Hll Hwl Hl0 Hw0 Hlt Hwt].
  rewrite close_letter_pending by (done || lia). simpl.
  rewrite log_word_pending; simpl.
  - unfold word_text at 1. simpl.
    by rewrite word_text_push by (rewrite Hwl; lia).
  - by rewrite length_insert.
  - lia.
  - unfold word_text at 1. simpl.
    rewrite word_text_push by (rewrite Hwl; lia).
    apply Forall_app. split; [done|]. constructor; [|done].
    apply morse_to_char_not_NUL.
Qed.

(** ** Pulses: dots and dashes *)

Lemma symbol_of_spec d :
  symbol_of d = if decide (d < 2 * dot) then "."%char else "-"%char.
Proof.
  unfold symbol_of. rewrite letter_gap_ms. unfold dot.
  by repeat case_decide; try lia.
Qed.

(** A pulse of exactly two dots is a dash. *)
Lemma symbol_of_boundary : symbol_of (2 * dot) = "-"%char.
Proof. reflexivity. Qed.




(** ** Gaps: letters *)




(** ** Gaps: words *)

Lemma word_text_length s : wf s → length (word_text s) = Z.to_nat (widx s).
Proof.
  intros [_ Hwl _ Hw _ _]. unfold word_text. rewrite length_take_le; [done|].
  rewrite Hwl. lia.
Qed.

Lemma word_with_pending_nil s :
  wf s → word_with_pending s = [] → lidx s ≤ 0 ∧ widx s ≤ 0.
Proof.
  intros Hwf Hnil. apply app_eq_nil in Hnil as [Hw Hp].
  split.
  - by case_decide; [|lia].
  - pose proof (word_text_length s Hwf) as Hlen. rewrite Hw in Hlen.
    simpl in Hlen. destruct Hwf. lia.
Qed.




(** ** Overrunning the arrays *)

(** C3 at its failing inputs, whatever the arrays held at startup.  Sixteen
    one-sample pulses leave [lidx = 16], and the falling edge of a
    seventeenth stores at [letter_buf[16]]; sixty-four one-symbol letters
    leave [widx = 64], and closing a sixty-fifth stores at [word_buf[64]].
    Neither store is within its array: no check on [lidx] or [widx] guards
    them. *)
Theorem buffers_overrun (lb wb : list ascii) :
  length lb = 16%nat → length wb = 64%nat →
  (∃ s, run (concat (replicate 16 (pulse 1 1))) (app_main_init lb wb) = Some (s, [])
        ∧ lidx s = 16)
  ∧ run (concat (replicate 17 (pulse 1 1))) (app_main_init lb wb) = None
  ∧ (∃ s, run (concat (replicate 64 (pulse 1 10)) ++ [50]) (app_main_init lb wb)
          = Some (s, [])
        ∧ widx s = 64)
  ∧ run (concat (replicate 65 (pulse 1 10)) ++ [50]) (app_main_init lb wb) = None.
Proof.
  intros Hlb Hwb.
  do 17 (destruct lb as [|? lb]; try done).
  do 65 (destruct wb as [|? wb]; try done).
  split; [eexists; split; by vm_compute|].
  split; [by vm_compute|].
  split; [eexists; split; by vm_compute|].
  by vm_compute.
Qed.

Lemma buffers_overrun_witness :
  (∃ s, run (concat (replicate 16 (pulse 1 1))) zeroed = Some (s, []) ∧ lidx s = 16)
  ∧ run (concat (replicate 17 (pulse 1 1))) zeroed = None
  ∧ (∃ s, run (concat (replicate 64 (pulse 1 10)) ++ [50]) zeroed = Some (s, [])
        ∧ widx s = 64)
  ∧ run (concat (replicate 65 (pulse 1 10)) ++ [50]) zeroed = None.
Proof.
  apply (buffers_overrun (replicate 16 NUL) (replicate 64 NUL)); reflexivity.
Defined.

(** ** The sample count *)

(** A dark LED seen for [n] more samples in state [OFF] adds [n] samples to
    the count, as long as the sum is an [int]. *)
Lemma idle_dark s volt n :
  state s = OFF → volt ≤ threshold + hysteresis →
  INT_MIN ≤ duration s → duration s + SAMPLE_MS * Z.of_N n ≤ INT_MAX →
  idle volt n s = Some (with_timer OFF (duration s + SAMPLE_MS * Z.of_N n) s).
Proof.
  intros Hst Hv Hmin. induction n as [|n IH] using N.peano_ind; intros Hmax.
  - simpl. destruct s as [? ? ? ? st d]. simpl in *. subst st.
    unfold with_timer. simpl. do 2 f_equal. lia.
  - unfold idle in *. rewrite N.iter_succ. unfold SAMPLE_MS in *.
    rewrite IH by lia. simpl.
    rewrite loop_body_dark by done. simpl.
    unfold with_timer. simpl. do 2 f_equal.
    unfold SAMPLE_MS. rewrite add_small; [lia|].
    unfold INT_MIN, INT_MAX in *. apply in_int_range. lia.
Qed.

(** C8, as the code has it.  An iteration either changes the state, once,
    and leaves the count at one sample, or keeps the state, the buffers and
    the indices, logs nothing and adds one sample to the count in [int]
    arithmetic.  So a count that is a non-negative multiple of [SAMPLE_MS]
    stays one through every iteration with an edge, and through every
    iteration without one as long as the count and one more sample do not
    exceed [INT_MAX]. *)
Theorem duration_counts_samples (s s' : Locals) (volt : Z) (out : list Log) :
  loop_body volt s = Some (s', out) →
  0 ≤ duration s → (SAMPLE_MS | duration s) →
  ((state s' ≠ state s ∧ duration s' = 0 + SAMPLE_MS)
   ∨ (s' = with_timer (state s) (add (duration s) SAMPLE_MS) s ∧ out = []))
  ∧ (state s' ≠ state s ∨ duration s + SAMPLE_MS ≤ INT_MAX →
       0 ≤ duration s' ∧ (SAMPLE_MS | duration s')
       ∧ (state s' = state s → duration s' = duration s + SAMPLE_MS)).
Proof.
  intros Hb Hpos Hdiv.
  assert ((state s' ≠ state s ∧ duration s' = 0 + SAMPLE_MS)
          ∨ (s' = with_timer (state s) (add (duration s) SAMPLE_MS) s ∧ out = []))
    as Hcases.
  { destruct (state s) eqn:Hst.
    - destruct (decide (volt > threshold + hysteresis)) as [Hv|Hv].
      + rewrite loop_body_rising in Hb by done.
        destruct (check_gaps s) as [[s1 o1]|]; [|done]. simpl in Hb.
        injection Hb as <- _. by left.
      + rewrite loop_body_dark in Hb by (done || lia).
        injection Hb as <- <-. by right.
    - destruct (decide (volt > threshold - hysteresis)) as [Hv|Hv].
      + rewrite loop_body_lit in Hb by done. injection Hb as <- <-. by right.
      + rewrite loop_body_falling in Hb by (done || lia).
        destruct (record_symbol s) as [s1|]; [|done]. simpl in Hb.
        injection Hb as <- _. by left. }
  split; [done|]. intros Hok.
  destruct Hcases as [[Hne ->] | [-> _]].
  - split; [done|]. split; [by exists 1|done].
  - simpl in *. destruct Hok as [Hne | Hmax]; [done|].
    rewrite add_small.
    + split; [unfold SAMPLE_MS; lia|]. split; [|done].
      apply Z.divide_add_r; [done|apply Z.divide_refl].
    + unfold INT_MAX, SAMPLE_MS in *. apply in_int_range. lia.
Qed.

Lemma duration_counts_samples_witness :
  let s := with_timer OFF 2147483630 zeroed in
  let s' := with_timer OFF 2147483640 zeroed in
  ((state s' ≠ state s ∧ duration s' = 0 + SAMPLE_MS)
   ∨ (s' = with_timer (state s) (add (duration s) SAMPLE_MS) s
      ∧ ([] : list Log) = []))
  ∧ (state s' ≠ state s ∨ duration s + SAMPLE_MS ≤ INT_MAX →
       0 ≤ duration s' ∧ (SAMPLE_MS | duration s')
       ∧ (state s' = state s → duration s' = duration s + SAMPLE_MS)).
Proof.
  intros s s'. apply (duration_counts_samples s s' 0 []).
  - reflexivity.
  - done.
  - by exists 214748363.
Defined.

(** C8, as stated, fails when the LED stays dark for 2147483650 ms, a little
    under 25 days: after 214748364 samples from startup the count is
    2147483640, a non-negative multiple of 10, and the next sample, with no
    edge, leaves it at -2147483646, negative and no multiple of 10. *)
Lemma duration_wraps :
  let s := with_timer OFF 2147483640 zeroed in
  let s' := with_timer OFF (-2147483646) zeroed in
  idle 0 214748364 zeroed = Some s
  ∧ 0 ≤ duration s ∧ (SAMPLE_MS | duration s)
  ∧ loop_body 0 s = Some (s', [])
  ∧ duration s' < 0 ∧ ¬ (SAMPLE_MS | duration s').
Proof.
  intros s s'. split.
  { rewrite (idle_dark zeroed 0 214748364); done. }
  split; [done|]. split; [by exists 214748364|].
  split; [done|]. split; [done|].
  intros [k Hk]. simpl in Hk. unfold SAMPLE_MS in Hk. lia.
Qed.

(** ** Whole intervals *)

Lemma run_app volts1 volts2 s :
  run (volts1 ++ volts2) s
  = (r1 ← run volts1 s; r2 ← run volts2 r1.1; Some (r2.1, r1.2 ++ r2.2)).
Proof.
  revert s. induction volts1 as [|v rest IH]; intros s; simpl.
  - by destruct (run volts2 s) as [[s2 o2]|].
  - destruct (loop_body v s) as [[s1 o1]|]; [|done]. simpl. rewrite IH.
    destruct (run rest s1) as [[s2 o2]|]; [|done]. simpl.
    destruct (run volts2 s2) as [[s3 o3]|]; [|done]. simpl.
    by rewrite app_assoc.
Qed.

(** While the LED stays lit, each sample adds [SAMPLE_MS] to the count and
    changes nothing else. *)
Lemma run_lit volts s :
  state s = ON → Forall (λ v, v > threshold - hysteresis) volts →
  INT_MIN ≤ duration s →
  duration s + SAMPLE_MS * Z.of_nat (length volts) ≤ INT_MAX →
  run volts s
  = Some (with_timer ON (duration s + SAMPLE_MS * Z.of_nat (length volts)) s, []).
Proof.
  intros Hst Hall. revert s Hst.
  induction Hall as [|v rest Hv _ IH]; intros s Hst Hmin Hmax; simpl.
  - destruct s as [? ? ? ? st d]. simpl in *. subst st.
    unfold with_timer. simpl. do 3 f_equal. lia.
  - rewrite loop_body_lit by done. simpl.
    unfold SAMPLE_MS, INT_MIN, INT_MAX in *. simpl in Hmax.
    assert (add (duration s) 10 = duration s + 10) as ->.
    { apply add_small, in_int_range. lia. }
    rewrite IH; simpl; [|done|lia|lia].
    unfold with_timer. simpl. do 3 f_equal. lia.
Qed.

(** A pulse seen as one rising sample, [n] further lit samples and a dark
    one lasts [SAMPLE_MS * (n + 1)] ms, and with room in [letter_buf] it is
    recorded as a dot below two dots and as a dash from two dots on. *)
Lemma pulse_records_symbol s s1 out v0 lits vlast :
  state s = OFF → v0 > threshold + hysteresis →
  check_gaps s = Some (s1, out) →
  Forall (λ v, v > threshold - hysteresis) lits →
  vlast ≤ threshold - hysteresis →
  length (letter_buf s1) = 16%nat → 0 ≤ lidx s1 < 16 →
  SAMPLE_MS * (Z.of_nat (length lits) + 1) ≤ INT_MAX →
  ∃ s', run (v0 :: lits ++ [vlast]) s = Some (s', out)
    ∧ letter_text s'
      = letter_text s1
        ++ [if decide (SAMPLE_MS * (Z.of_nat (length lits) + 1) < 2 * dot)
            then "."%char else "-"%char]
    ∧ word_buf s' = word_buf s1 ∧ widx s' = widx s1
    ∧ state s' = OFF ∧ duration s' = SAMPLE_MS.
Proof.
  intros Hst Hv0 Hg Hlits Hvl Hlen Hl Hmax.
  unfold SAMPLE_MS, INT_MAX in *.
  cbn [run]. rewrite loop_body_rising, Hg by done. simpl.
  rewrite run_app.
  rewrite run_lit; simpl; unfold SAMPLE_MS, INT_MIN, INT_MAX; [|done|done|lia|lia].
  rewrite loop_body_falling by done.
  rewrite record_symbol_room by (simpl; rewrite ?Hlen; unfold INT_MAX; lia).
  simpl. eexists. split; [by rewrite !app_nil_r|]. simpl.
  repeat (split; [|done]).
  unfold letter_text at 1. simpl.
  rewrite letter_text_record by (rewrite Hlen; lia).
  rewrite symbol_of_spec.
  by replace (10 + 10 * Z.of_nat (length lits))
    with (10 * (Z.of_nat (length lits) + 1)) by lia.
Qed.

(** With fewer than 16 pending symbols and fewer than 63 characters in the
    word, an iteration stores only within the arrays. *)
Lemma loop_body_defined s volt :
  wf s → lidx s < 16 → widx s < 63 → is_Some (loop_body volt s).
Proof.
  intros Hwf Hl Hw. pose proof Hwf as [Hll Hwl Hl0 Hw0 Hlt Hwt].
  destruct (state s) eqn:Hst.
  - destruct (decide (volt > threshold + hysteresis)) as [Hv|Hv].
    + rewrite loop_body_rising by done.
      destruct (decide (duration s < 2 * dot)) as [Hd|Hd];
        [by rewrite check_gaps_short|].
      destruct (decide (0 < lidx s)) as [Hpos|Hpos];
        (destruct (decide (duration s < 5 * dot)) as [Hd5|Hd5];
         [rewrite check_gaps_letter by lia|rewrite check_gaps_word by lia]).
      * by rewrite close_letter_pending by (done || lia).
      * by rewrite close_then_log by (done || lia).
      * by rewrite close_letter_idle by lia.
      * rewrite close_letter_idle by lia. simpl.
        destruct (decide (0 < widx s)).
        -- by rewrite log_word_pending by (done || lia).
        -- by rewrite log_word_idle by lia.
    + by rewrite loop_body_dark by (done || lia).
  - destruct (decide (volt > threshold - hysteresis)) as [Hv|Hv].
    + by rewrite loop_body_lit by done.
    + rewrite loop_body_falling by (done || lia).
      by rewrite record_symbol_room by (rewrite ?Hll; unfold INT_MAX; lia).
Qed.

(** ** Sample runs, with [dot = 50] ms and one sample per 10 ms *)

(** Two dots, a word gap, and the rising edge that ends it: the word "I". *)
Example run_two_dots :
  snd <$> run (pulse 5 5 ++ pulse 5 25 ++ [50]) zeroed = Some [Decoded_Word "I"].
Proof. by vm_compute. Qed.

(** Without that rising edge the two dots stay pending and nothing is
    logged. *)
Example run_two_dots_pending :
  (λ r, (letter_text r.1, word_text r.1, r.2))
    <$> run (pulse 5 5 ++ pulse 5 25) zeroed
  = Some (["."%char; "."%char], [], []).
Proof. by vm_compute. Qed.

(** A pulse of five dots is a dash. *)
Example run_long_pulse :
  (λ r, letter_text r.1) <$> run (pulse 25 1) zeroed = Some ["-"%char].
Proof. by vm_compute. Qed.

(** Six dots are no code of the table. *)
Example lookup_six_dots : morse_to_char "......" = "?"%char.
Proof. reflexivity. Qed.

(** "SOS" keyed with dashes of three dots, letter gaps of three dots and a
    word gap of seven. *)
Example run_sos :
  snd <$> run (pulse 5 5 ++ pulse 5 5 ++ pulse 5 15
               ++ pulse 15 5 ++ pulse 15 5 ++ pulse 15 15
               ++ pulse 5 5 ++ pulse 5 5 ++ pulse 5 35 ++ [50]) zeroed
  = Some [Decoded_Word "SOS"].
Proof. by vm_compute. Qed.

(** ** Steady signals *)

Lemma wrap_add a b : wrap (wrap a + b) = wrap (a + b).
Proof.
  unfold wrap. f_equal.
  replace ((a + 2147483648) `mod` 4294967296 - 2147483648 + b + 2147483648)
    with ((a + 2147483648) `mod` 4294967296 + b) by lia.
  rewrite Zplus_mod_idemp_l. f_equal. lia.
Qed.

Lemma loop_body_steady s volt :
  steady s volt →
  loop_body volt s = Some (with_timer (state s) (add (duration s) SAMPLE_MS) s, []).
Proof.
  unfold steady. destruct (state s) eqn:Hst; intros Hv.
  - by rewrite loop_body_dark.
  - by rewrite loop_body_lit.
Qed.

(** Without an edge a run only counts its samples, in [int] arithmetic. *)
Lemma run_steady volts s :
  in_int (duration s) → Forall (steady s) volts →
  run volts s
  = Some (with_timer (state s)
            (wrap (duration s + SAMPLE_MS * Z.of_nat (length volts))) s, []).
Proof.
  intros Hint Hall. revert s Hint Hall.
  induction volts as [|v rest IH]; intros s Hint Hall.
  - simpl. rewrite Z.mul_0_r, Z.add_0_r, wrap_id by done. by destruct s.
  - inversion_clear Hall as [|? ? Hv Hrest].
    replace (Z.of_nat (length (v :: rest)))
      with (Z.of_nat (length rest) + 1) by (cbn [length]; lia).
    cbn [run]. rewrite loop_body_steady by done. simpl.
    rewrite IH; simpl.
    + unfold add. rewrite wrap_add. unfold SAMPLE_MS, with_timer. simpl.
      by replace (duration s + 10 + 10 * Z.of_nat (length rest))
        with (duration s + 10 * (Z.of_nat (length rest) + 1)) by lia.
    + apply wrap_in_int.
    + done.
Qed.

(** X1.  A run of readings none of which makes an edge (at most 45 mV in
    state [OFF], above 35 mV in state [ON]) stores nothing, logs nothing and
    keeps the state: it adds one sample per reading to the count, in [int]
    arithmetic.  Readings within the band (35, 45] do so in either state. *)
Theorem steady_signal (s : Locals) (volts : list Z) :
  in_int (duration s) →
  (Forall (steady s) volts
   ∨ Forall (λ v, threshold - hysteresis < v ≤ threshold + hysteresis) volts) →
  run volts s
  = Some ({| letter_buf := letter_buf s; lidx := lidx s;
             word_buf := word_buf s; widx := widx s;
             state := state s;
             duration := wrap (duration s + SAMPLE_MS * Z.of_nat (length volts)) |},
          []).
Proof.
  intros Hint [Hall|Hband]; [by apply run_steady|].
  apply run_steady; [done|].
  eapply List.Forall_impl; [|exact Hband].
  intros v Hv. unfold steady, threshold, hysteresis in *. destruct (state s); lia.
Qed.

Lemma steady_signal_witness :
  run [36; 45; 40; 41] (with_timer ON 30 zeroed)
  = Some (with_timer ON 70 zeroed, []).
Proof.
  apply (steady_signal (with_timer ON 30 zeroed) [36; 45; 40; 41]).
  - done.
  - right. repeat constructor; done.
Defined.

(** ** Where the loop overruns its arrays *)

Lemma close_letter_word_full s :
  length (letter_buf s) = 16%nat → length (word_buf s) = 64%nat →
  0 < lidx s < 16 → 64 ≤ widx s → close_letter s = None.
Proof.
  intros Hll Hwl Hl Hw. unfold close_letter. rewrite decide_True by lia.
  rewrite store_Some by (rewrite Hll; lia). simpl.
  destruct (read_cstr _); [|done]. simpl.
  rewrite store_None; [done|]. rewrite Hwl. lia.
Qed.

Ltac arith_cases :=
  unfold dot, threshold, hysteresis in *; intuition (discriminate || lia).

(** X2.  On locals as the loop keeps them, an iteration stores outside an
    array in these cases and no others: a falling edge with 16 symbols
    pending; a rising edge after a gap of at least two dots with a pending
    letter of 16 symbols, or with a pending letter and 64 characters in the
    word; a rising edge after a gap of at least five dots with 64 characters
    in the word, or with a pending letter and 63. *)
Theorem loop_body_overruns_iff (s : Locals) (volt : Z) :
  wf s →
  loop_body volt s = None
  ↔ (state s = ON ∧ volt ≤ threshold - hysteresis ∧ lidx s = 16)
    ∨ (state s = OFF ∧ volt > threshold + hysteresis ∧ 2 * dot ≤ duration s
       ∧ ((0 < lidx s ∧ (lidx s = 16 ∨ widx s = 64))
          ∨ (5 * dot ≤ duration s
             ∧ (widx s = 64 ∨ (0 < lidx s ∧ widx s = 63))))).
Proof.
  intros Hwf. pose proof Hwf as [Hll Hwl Hl0 Hw0 Hlt Hwt].
  destruct (state s) eqn:Hst.
  - destruct (decide (volt > threshold + hysteresis)) as [Hv|Hv];
      [|rewrite loop_body_dark by (done || lia); arith_cases].
    rewrite loop_body_rising by done.
    destruct (decide (duration s < 2 * dot)) as [Hd|Hd];
      [rewrite check_gaps_short by done; arith_cases|].
    destruct (decide (duration s < 5 * dot)) as [Hd5|Hd5].
    + rewrite check_gaps_letter by lia.
      destruct (decide (0 < lidx s)) as [Hpos|Hpos];
        [|rewrite close_letter_idle by lia; arith_cases].
      destruct (decide (lidx s < 16)) as [Hl|Hl];
        [|rewrite close_letter_full by (done || lia); arith_cases].
      destruct (decide (widx s < 64)) as [Hw|Hw].
      * rewrite close_letter_pending by (done || lia). arith_cases.
      * rewrite close_letter_word_full by (done || lia). arith_cases.
    + rewrite check_gaps_word by lia.
      destruct (decide (0 < lidx s)) as [Hpos|Hpos].
      * destruct (decide (lidx s < 16)) as [Hl|Hl];
          [|rewrite close_letter_full by (done || lia); arith_cases].
        destruct (decide (widx s < 63)) as [Hw|Hw];
          [rewrite close_then_log by (done || lia); arith_cases|].
        destruct (decide (widx s < 64)) as [Hw'|Hw'].
        -- rewrite close_letter_pending by (done || lia). simpl.
           rewrite log_word_full;
             [arith_cases|simpl; by rewrite length_insert|simpl; lia].
        -- rewrite close_letter_word_full by (done || lia). arith_cases.
      * rewrite close_letter_idle by lia. simpl.
        destruct (decide (0 < widx s)) as [Hwpos|Hwpos];
          [|rewrite log_word_idle by lia; arith_cases].
        destruct (decide (widx s < 64)) as [Hw|Hw].
        -- rewrite log_word_pending by (done || lia). arith_cases.
        -- rewrite log_word_full by (done || lia). arith_cases.
  - destruct (decide (volt > threshold - hysteresis)) as [Hv|Hv];
      [rewrite loop_body_lit by done; arith_cases|].
    rewrite loop_body_falling by (done || lia).
    destruct (decide (lidx s < 16)) as [Hl|Hl].
    + rewrite record_symbol_room by (rewrite ?Hll; unfold INT_MAX; lia).
      arith_cases.
    + rewrite record_symbol_full by (rewrite Hll; lia). arith_cases.
Qed.

Lemma loop_body_overruns_iff_witness :
  let s := {| letter_buf := replicate 16 "."%char; lidx := 16;
              word_buf := replicate 64 NUL; widx := 0;
              state := ON; duration := 10 |} in
  loop_body 0 s = None
  ↔ (state s = ON ∧ 0 ≤ threshold - hysteresis ∧ lidx s = 16)
    ∨ (state s = OFF ∧ 0 > threshold + hysteresis ∧ 2 * dot ≤ duration s
       ∧ ((0 < lidx s ∧ (lidx s = 16 ∨ widx s = 64))
          ∨ (5 * dot ≤ duration s
             ∧ (widx s = 64 ∨ (0 < lidx s ∧ widx s = 63))))).
Proof.
  intros s. apply (loop_body_overruns_iff s 0).
  split; simpl; try done; unfold letter_text, word_text; simpl.
  apply (bool_decide_unpack _). by vm_compute.
Defined.

(** ** What the lookup tells apart *)

Lemma morse_to_char_hit code :
  cstr code ∈ table_codes →
  ∃ e, e ∈ morse_table ∧ morse e = cstr code ∧ morse_to_char code = letter e.
Proof.
  intros Hin.
  destruct (morse_to_char_from_hit_in morse_table code) as (e & He & Hc & Hm).
  - assert (cstr ∘ morse <$> morse_table = table_codes) as -> by done. done.
  - exists e. split; [done|]. split; [|done].
    rewrite <- Hc. symmetry. apply cstr_no_nul.
    apply (proj1 (list.Forall_forall _ _) table_codes_no_nul).
    unfold table_codes. apply list_elem_of_fmap. by exists e.
Qed.

Lemma NoDup_fmap_inj {A B} (f : A → B) (l : list A) x y :
  NoDup (f <$> l) → x ∈ l → y ∈ l → f x = f y → x = y.
Proof.
  induction l as [|a l IH]; simpl; intros Hnd Hx Hy Hf.
  - by apply not_elem_of_nil in Hx.
  - apply list.NoDup_cons in Hnd as [Hnot Hnd].
    apply elem_of_cons in Hx as [->|Hx]; apply elem_of_cons in Hy as [->|Hy].
    + done.
    + destruct Hnot. rewrite Hf. by apply list_elem_of_fmap_2.
    + destruct Hnot. rewrite <- Hf. by apply list_elem_of_fmap_2.
    + by apply IH.
Qed.

Lemma table_letters_NoDup : NoDup (letter <$> morse_table).
Proof. apply (bool_decide_unpack _). by vm_compute. Qed.

Lemma table_letter_not_question e : e ∈ morse_table → letter e ≠ "?"%char.
Proof.
  assert (Forall (λ e, letter e ≠ "?"%char) morse_table) as Hall.
  { apply (bool_decide_unpack _). by vm_compute. }
  apply (proj1 (list.Forall_forall _ _) Hall).
Qed.

Lemma morse_to_char_range code : decoded_char (morse_to_char code).
Proof.
  unfold decoded_char, morse_to_char.
  destruct (morse_to_char_from_range morse_table code); auto.
Qed.

(** X3.  [morse_to_char] tells the codes of the table apart: it returns
    '?' exactly on the strings that are no code of the table, and two
    strings on which it returns the same character other than '?' are the
    same code. *)
Theorem morse_to_char_faithful (c1 c2 : string) :
  (morse_to_char c1 = "?"%char ↔ cstr c1 ∉ table_codes)
  ∧ (morse_to_char c1 = morse_to_char c2 → morse_to_char c1 ≠ "?"%char →
     cstr c1 = cstr c2).
Proof.
  assert (∀ c, morse_to_char c = "?"%char ↔ cstr c ∉ table_codes) as Hq.
  { intros c. split; [|apply morse_to_char_miss].
    intros Hc Hin. destruct (morse_to_char_hit c Hin) as (e & He & _ & Hm).
    rewrite Hm in Hc. by apply (table_letter_not_question e). }
  split; [apply Hq|]. intros Heq Hne.
  destruct (decide (cstr c1 ∈ table_codes)) as [Hin1|Hout];
    [|by apply Hq in Hout].
  destruct (decide (cstr c2 ∈ table_codes)) as [Hin2|Hout];
    [|apply Hq in Hout; congruence].
  destruct (morse_to_char_hit c1 Hin1) as (e1 & He1 & Hm1 & Hl1).
  destruct (morse_to_char_hit c2 Hin2) as (e2 & He2 & Hm2 & Hl2).
  rewrite <- Hm1, <- Hm2. f_equal.
  apply (NoDup_fmap_inj letter morse_table); [apply table_letters_NoDup|done..|].
  congruence.
Qed.

Lemma morse_to_char_faithful_witness :
  (morse_to_char "..--" = "?"%char ↔ cstr "..--" ∉ table_codes)
  ∧ (morse_to_char "-.-" = morse_to_char "-.-" → morse_to_char "-.-" ≠ "?"%char →
     cstr "-.-" = cstr "-.-").
Proof.
  destruct (morse_to_char_faithful "..--" "..--") as [Hq _].
  destruct (morse_to_char_faithful "-.-" "-.-") as [_ Hinj].
  split; [exact Hq|exact Hinj].
Defined.

(** ** Letters of more than five symbols *)

Lemma string_length_of_list l : String.length (string_of_list_ascii l) = length l.
Proof. induction l as [|c r IH]; simpl; [done|]. by rewrite IH. Qed.

Lemma no_nul_of_symbols l : Forall dot_or_dash l → no_nul (string_of_list_ascii l).
Proof.
  intros Hl. unfold no_nul. rewrite list_ascii_of_string_of_list_ascii.
  eapply List.Forall_impl; [|exact Hl]. intros c. apply dot_or_dash_not_NUL.
Qed.

Lemma letter_text_length s : wf s → length (letter_text s) = Z.to_nat (lidx s).
Proof.
  intros [Hll _ Hl _ _ _]. unfold letter_text. rewrite length_take_le; [done|].
  rewrite Hll. lia.
Qed.

(** X4.  A letter gap that finds between 6 and 15 pending symbols closes
    them as the character '?': the letter is emptied, '?' is pushed on the
    word and nothing is logged. *)
Theorem long_letter_reads_as_unknown (s : Locals) (volt : Z) :
  wf s → state s = OFF → volt > threshold + hysteresis →
  2 * dot ≤ duration s < 5 * dot → 5 < lidx s < 16 → widx s < 64 →
  ∃ s', loop_body volt s = Some (s', [])
    ∧ lidx s' = 0 ∧ letter_text s' = []
    ∧ widx s' = widx s + 1 ∧ word_text s' = word_text s ++ ["?"%char].
Proof.
  intros Hwf Hst Hv Hd Hl Hw. pose proof Hwf as [Hll Hwl Hl0 Hw0 Hlt Hwt].
  rewrite loop_body_rising, check_gaps_letter by done.
  rewrite close_letter_pending by (done || lia). simpl.
  eexists. split; [done|]. simpl. repeat (split; [done|]).
  unfold word_text at 1. simpl. rewrite word_text_push by (rewrite Hwl; lia).
  f_equal. f_equal. unfold letter_char. apply morse_to_char_miss.
  rewrite cstr_no_nul by by apply no_nul_of_symbols.
  apply long_code_not_in_table.
  rewrite string_length_of_list, letter_text_length by done. lia.
Qed.

Lemma long_letter_reads_as_unknown_witness :
  let s := {| letter_buf := replicate 16 "."%char; lidx := 6;
              word_buf := replicate 64 NUL; widx := 0;
              state := OFF; duration := 100 |} in
  ∃ s', loop_body 50 s = Some (s', [])
    ∧ lidx s' = 0 ∧ letter_text s' = []
    ∧ widx s' = widx s + 1 ∧ word_text s' = word_text s ++ ["?"%char].
Proof.
  intros s. apply (long_letter_reads_as_unknown s 50); try done.
  split; simpl; try done; unfold letter_text, word_text; simpl.
  apply (bool_decide_unpack _). by vm_compute.
Defined.

(** ** The words a run logs *)

Lemma close_letter_chars s s' :
  wf s → Forall decoded_char (word_text s) → close_letter s = Some s' →
  Forall decoded_char (word_text s').
Proof.
  intros Hwf Hch Hcl. pose proof Hwf as [Hll Hwl Hl Hw Hlt Hwt].
  unfold close_letter in Hcl. case_decide as Hpos; [|by injection Hcl as <-].
  destruct (store (letter_buf s) _ _) as [lb|] eqn:Hst; [|done]. simpl in Hcl.
  destruct (read_cstr lb) as [code|]; [|done]. simpl in Hcl.
  destruct (store (word_buf s) _ _) as [wb|] eqn:Hsw; [|done]. simpl in Hcl.
  apply store_inv in Hsw as [Hj ->]. injection Hcl as <-.
  assert (add (widx s) 1 = widx s + 1) as Hadd.
  { apply add_small, in_int_range. lia. }
  unfold word_text. simpl. rewrite Hadd, word_text_push by done.
  apply Forall_app. split; [done|]. constructor; [|done].
  apply morse_to_char_range.
Qed.

Lemma log_word_shape s s' out :
  wf s → Forall decoded_char (word_text s) → log_word s = Some (s', out) →
  Forall decoded_char (word_text s') ∧ Forall well_formed_word out.
Proof.
  intros Hwf Hch Hlog. pose proof Hwf as [Hll Hwl Hl Hw Hlt Hwt].
  unfold log_word in Hlog. case_decide as Hpos; [|by injection Hlog as <- <-].
  destruct (store (word_buf s) _ _) as [wb|] eqn:Hsw; [|done]. simpl in Hlog.
  apply store_inv in Hsw as [Hj ->]. rewrite Hwl in Hj.
  rewrite read_cstr_terminated in Hlog by (done || lia). simpl in Hlog.
  injection Hlog as <- <-. split; [unfold word_text; simpl; constructor|].
  constructor; [|done]. simpl. fold (word_text s).
  rewrite string_length_of_list, list_ascii_of_string_of_list_ascii.
  split; [|done]. rewrite word_text_length by done. lia.
Qed.

Lemma check_gaps_shape s s' out :
  wf s → Forall decoded_char (word_text s) → check_gaps s = Some (s', out) →
  Forall decoded_char (word_text s') ∧ Forall well_formed_word out.
Proof.
  intros Hwf Hch Hg. unfold check_gaps in Hg.
  case_decide; [|case_decide].
  - destruct (close_letter s) as [s2|] eqn:Hcl; [|done]. simpl in Hg.
    eapply log_word_shape; [| |exact Hg].
    + by eapply wf_close_letter.
    + by eapply close_letter_chars.
  - destruct (close_letter s) as [s2|] eqn:Hcl; [|done]. simpl in Hg.
    injection Hg as <- <-. split; [|done]. by eapply close_letter_chars.
  - by injection Hg as <- <-.
Qed.

Lemma loop_body_shape volt s s' out :
  wf s → Forall decoded_char (word_text s) → loop_body volt s = Some (s', out) →
  Forall decoded_char (word_text s') ∧ Forall well_formed_word out.
Proof.
  intros Hwf Hch Hb. unfold loop_body, rising_edge, falling_edge in Hb.
  destruct (led_on s volt), (state s); simpl in Hb.
  - destruct (check_gaps s) as [[s1 o1]|] eqn:Hg; [|done]. simpl in Hb.
    injection Hb as <- <-.
    by destruct (check_gaps_shape _ _ _ Hwf Hch Hg).
  - by injection Hb as <- <-.
  - by injection Hb as <- <-.
  - destruct (record_symbol s) as [s1|] eqn:Hr; [|done]. simpl in Hb.
    injection Hb as <- <-. split; [|done].
    unfold record_symbol in Hr.
    destruct (store _ _ _) as [lb|]; [|done]. simpl in Hr. by injection Hr as <-.
Qed.

Lemma run_shape volts s s' out :
  wf s → Forall decoded_char (word_text s) → run volts s = Some (s', out) →
  Forall decoded_char (word_text s') ∧ Forall well_formed_word out.
Proof.
  revert s out. induction volts as [|v rest IH]; simpl; intros s out Hwf Hch Hr.
  - by injection Hr as <- <-.
  - destruct (loop_body v s) as [[s1 o1]|] eqn:Hb; [|done]. simpl in Hr.
    destruct (run rest s1) as [[s2 o2]|] eqn:Hrest; [|done]. simpl in Hr.
    injection Hr as <- <-.
    destruct (loop_body_shape _ _ _ _ Hwf Hch Hb) as [Hch1 Ho1].
    destruct (IH s1 o2) as [Hch2 Ho2]; [by eapply wf_loop_body|done|done|].
    split; [done|]. apply Forall_app. by split.
Qed.

(** X5.  Whatever the arrays held at startup and whatever is read, every
    word logged by a run that does not overrun has between 1 and 63
    characters, each of them a capital letter or a digit of the table or
    '?'. *)
Theorem logged_words_well_formed (lb wb : list ascii) (volts : list Z)
    (s : Locals) (out : list Log) :
  length lb = 16%nat → length wb = 64%nat →
  run volts (app_main_init lb wb) = Some (s, out) →
  Forall well_formed_word out.
Proof.
  intros Hlb Hwb Hrun.
  eapply run_shape; [by apply wf_init| |exact Hrun].
  unfold word_text. simpl. constructor.
Qed.

Lemma logged_words_well_formed_witness :
  Forall well_formed_word [Decoded_Word "I"].
Proof.
  apply (logged_words_well_formed (replicate 16 NUL) (replicate 64 NUL)
           (pulse 5 5 ++ pulse 5 25 ++ [50])
           {| letter_buf := ["."%char; "."%char] ++ replicate 14 NUL; lidx := 0;
              word_buf := ["I"%char] ++ replicate 63 NUL; widx := 0;
              state := ON; duration := 10 |});
    [reflexivity|reflexivity|by vm_compute].
Defined.

(** ** What the arrays held before *)

Lemma view_recorded s :
  wf s → lidx s < 16 →
  view <$> record_symbol s
  = Some (lidx s + 1, widx s, state s, duration s,
          letter_text s ++ [symbol_of (duration s)], word_text s).
Proof.
  intros [Hll Hwl Hl Hw Hlt Hwt] Hroom.
  rewrite record_symbol_room by (rewrite ?Hll; unfold INT_MAX; lia). simpl.
  unfold view, letter_text at 1. simpl.
  by rewrite letter_text_record by (rewrite Hll; lia).
Qed.

Lemma view_closed s :
  wf s → 0 < lidx s < 16 → widx s < 64 →
  view <$> close_letter s
  = Some (0, widx s + 1, state s, duration s, [], word_text s ++ [letter_char s]).
Proof.
  intros Hwf Hl Hw. pose proof Hwf as [Hll Hwl Hl0 Hw0 Hlt Hwt].
  rewrite close_letter_pending by done. simpl.
  unfold view, word_text at 1. simpl.
  by rewrite word_text_push by (rewrite Hwl; lia).
Qed.

Lemma view_logged s :
  wf s → 0 < widx s < 64 →
  (λ r, (view r.1, r.2)) <$> log_word s
  = Some ((lidx s, 0, state s, duration s, letter_text s, []),
          [Decoded_Word (string_of_list_ascii (word_text s))]).
Proof.
  intros [Hll Hwl Hl0 Hw0 Hlt Hwt] Hw.
  by rewrite log_word_pending by done.
Qed.

Ltac same_view Hv :=
  unfold view in Hv; injection Hv as Hvl Hvw Hvs Hvd Hvlt Hvwt.

Lemma record_symbol_view s t :
  wf s → wf t → view s = view t →
  view <$> record_symbol s = view <$> record_symbol t.
Proof.
  intros Hs Ht Hv.
  destruct (decide (lidx s < 16)) as [Hl|Hl].
  - rewrite (view_recorded s), (view_recorded t); try done.
    + same_view Hv. congruence.
    + same_view Hv. lia.
  - same_view Hv. destruct Hs, Ht.
    rewrite !record_symbol_full; [done|lia|lia].
Qed.

Lemma close_letter_view s t :
  wf s → wf t → view s = view t →
  view <$> close_letter s = view <$> close_letter t.
Proof.
  intros Hs Ht Hv. pose proof Hv as Hv'. same_view Hv'.
  assert (letter_char s = letter_char t) as Hc.
  { unfold letter_char. by rewrite Hvlt. }
  destruct (decide (0 < lidx s)) as [Hpos|Hpos].
  - destruct (decide (lidx s < 16)) as [Hl|Hl].
    + destruct (decide (widx s < 64)) as [Hw|Hw].
      * rewrite (view_closed s), (view_closed t) by (done || lia). congruence.
      * destruct Hs, Ht. rewrite !close_letter_word_full; (done || lia).
    + destruct Hs, Ht. rewrite !close_letter_full; (done || lia).
  - rewrite !close_letter_idle by lia. simpl. by f_equal.
Qed.

Lemma log_word_view s t :
  wf s → wf t → view s = view t →
  (λ r, (view r.1, r.2)) <$> log_word s = (λ r, (view r.1, r.2)) <$> log_word t.
Proof.
  intros Hs Ht Hv. pose proof Hv as Hv'. same_view Hv'.
  destruct (decide (0 < widx s)) as [Hpos|Hpos].
  - destruct (decide (widx s < 64)) as [Hw|Hw].
    + rewrite (view_logged s), (view_logged t) by (done || lia). congruence.
    + destruct Hs, Ht. rewrite !log_word_full; (done || lia).
  - rewrite !log_word_idle by lia. simpl. by rewrite Hv.
Qed.

Lemma view_with_timer st d s t :
  view s = view t → view (with_timer st d s) = view (with_timer st d t).
Proof.
  intros Hv. unfold view, letter_text, word_text in *. simpl.
  injection Hv as Hvl Hvw Hvs Hvd Hvlt Hvwt. congruence.
Qed.

Lemma check_gaps_view s t :
  wf s → wf t → view s = view t →
  (λ r, (view r.1, r.2)) <$> check_gaps s = (λ r, (view r.1, r.2)) <$> check_gaps t.
Proof.
  intros Hs Ht Hv. pose proof Hv as Hv'. same_view Hv'.
  pose proof (close_letter_view s t Hs Ht Hv) as Hcl.
  unfold check_gaps. rewrite <- Hvd.
  case_decide; [|case_decide].
  - destruct (close_letter s) as [s1|] eqn:Hcs,
             (close_letter t) as [t1|] eqn:Hct; try done. simpl.
    assert (view s1 = view t1) as Hv1 by (simpl in Hcl; congruence).
    apply log_word_view; [..|done].
    + by apply (wf_close_letter s).
    + by apply (wf_close_letter t).
  - destruct (close_letter s) as [s1|] eqn:Hcs,
             (close_letter t) as [t1|] eqn:Hct; try done. simpl.
    assert (view s1 = view t1) as Hv1 by (simpl in Hcl; congruence).
    by rewrite Hv1.
  - simpl. by rewrite Hv.
Qed.

Lemma loop_body_view volt s t :
  wf s → wf t → view s = view t →
  (λ r, (view r.1, r.2)) <$> loop_body volt s
  = (λ r, (view r.1, r.2)) <$> loop_body volt t.
Proof.
  intros Hs Ht Hv. pose proof Hv as Hv'. same_view Hv'.
  unfold loop_body, led_on, rising_edge, falling_edge. rewrite <- Hvs.
  destruct (state s) eqn:Hst.
  - case_bool_decide; simpl.
    + pose proof (check_gaps_view s t Hs Ht Hv) as Hg.
      destruct (check_gaps s) as [[s1 o1]|], (check_gaps t) as [[t1 o1']|];
        try done. simpl in *.
      assert (view s1 = view t1 ∧ o1 = o1') as [Hv1 ->]
        by (split; congruence).
      do 2 f_equal. by apply view_with_timer, view_with_timer.
    + rewrite Hvd. do 2 f_equal. by apply view_with_timer.
  - case_bool_decide; simpl.
    + rewrite Hvd. do 2 f_equal. by apply view_with_timer.
    + pose proof (record_symbol_view s t Hs Ht Hv) as Hr.
      destruct (record_symbol s) as [s1|], (record_symbol t) as [t1|];
        try done. simpl in *.
      assert (view s1 = view t1) as Hv1 by congruence.
      do 2 f_equal. by apply view_with_timer, view_with_timer.
Qed.

Lemma run_view volts s t :
  wf s → wf t → view s = view t →
  (λ r, (view r.1, r.2)) <$> run volts s = (λ r, (view r.1, r.2)) <$> run volts t.
Proof.
  revert s t. induction volts as [|v rest IH]; intros s t Hs Ht Hv; simpl.
  - by rewrite Hv.
  - pose proof (loop_body_view v s t Hs Ht Hv) as Hb.
    destruct (loop_body v s) as [[s1 o1]|] eqn:Hbs,
             (loop_body v t) as [[t1 o1']|] eqn:Hbt; try done. simpl in *.
    assert (view s1 = view t1 ∧ o1 = o1') as [Hv1 ->] by (split; congruence).
    assert (wf s1) as Hs1 by apply (wf_loop_body v s s1 _ Hs Hbs).
    assert (wf t1) as Ht1 by apply (wf_loop_body v t t1 _ Ht Hbt).
    pose proof (IH s1 t1 Hs1 Ht1 Hv1) as Hr.
    destruct (run rest s1) as [[s2 o2]|], (run rest t1) as [[t2 o2']|];
      try done. simpl in *.
    assert (view s2 = view t2 ∧ o2 = o2') as [Hv2 ->] by (split; congruence).
    by rewrite Hv2.
Qed.

(** X6.  What the two arrays hold when [app_main] starts makes no
    difference: on the same readings, two starts overrun together or not at
    all, log the same words, and end with the same indices, state, count,
    pending symbols and word. *)
Theorem run_ignores_stale_arrays (lb wb lb' wb' : list ascii) (volts : list Z) :
  length lb = 16%nat → length wb = 64%nat →
  length lb' = 16%nat → length wb' = 64%nat →
  (λ r, (view r.1, r.2)) <$> run volts (app_main_init lb wb)
  = (λ r, (view r.1, r.2)) <$> run volts (app_main_init lb' wb').
Proof.
  intros Hlb Hwb Hlb' Hwb'.
  apply run_view; [by apply wf_init|by apply wf_init|done].
Qed.

Lemma run_ignores_stale_arrays_witness :
  (λ r, (view r.1, r.2))
    <$> run (pulse 5 5 ++ pulse 5 25 ++ [50]) zeroed
  = (λ r, (view r.1, r.2))
    <$> run (pulse 5 5 ++ pulse 5 25 ++ [50])
          (app_main_init (replicate 16 "x"%char) (replicate 64 "y"%char)).
Proof.
  apply (run_ignores_stale_arrays (replicate 16 NUL) (replicate 64 NUL)
           (replicate 16 "x"%char) (replicate 64 "y"%char));
    reflexivity.
Defined.

(** ** Keyed signals: one pulse *)

Lemma wf_recorded s c st d :
  wf s → lidx s < 16 → dot_or_dash c →
  wf {| letter_buf := <[Z.to_nat (lidx s) := c]> (letter_buf s);
        lidx := lidx s + 1;
        word_buf := word_buf s; widx := widx s;
        state := st; duration := d |}.
Proof.
  intros [Hll Hwl Hl Hw Hlt Hwt] Hroom Hc.
  split; simpl; rewrite ?length_insert; try done; try lia.
  unfold letter_text. simpl. rewrite letter_text_record by (rewrite Hll; lia).
  apply Forall_app. split; [done|]. by constructor.
Qed.

Section Keyed.
Variable k : Keying.
Hypothesis Hk : well_timed k.

Lemma key_symbol_length c :
  dot_or_dash c →
  ∃ n, key_symbol k c = hi k :: replicate n (hi k)
       ∧ SAMPLE_MS * (Z.of_nat n + 1) ≤ INT_MAX
       ∧ symbol_of (SAMPLE_MS * (Z.of_nat n + 1)) = c.
Proof.
  destruct Hk as [_ _ Hdot Hdash _ _ _].
  unfold key_symbol. intros [-> | ->]; simpl.
  - destruct (n_dot k) as [|n]; [unfold SAMPLE_MS in *; lia|]. exists n.
    rewrite symbol_of_spec.
    unfold SAMPLE_MS, INT_MAX, dot in *.
    split; [done|]. split; [lia|]. rewrite decide_True; [done|lia].
  - destruct (n_dash k) as [|n]; [unfold SAMPLE_MS, dot in *; lia|]. exists n.
    rewrite symbol_of_spec.
    unfold SAMPLE_MS, INT_MAX, dot in *.
    split; [done|]. split; [lia|]. rewrite decide_False; [done|lia].
Qed.

(** A pulse and the gap after it, seen from state [OFF]: the rising edge
    deals with the gap before, the falling edge records the symbol, and
    the count ends at the length of the gap after. *)
Lemma run_pulse s s1 out c g :
  state s = OFF → check_gaps s = Some (s1, out) →
  length (letter_buf s1) = 16%nat → 0 ≤ lidx s1 < 16 →
  dot_or_dash c → 0 < SAMPLE_MS * Z.of_nat g ≤ INT_MAX →
  run (key_symbol k c ++ replicate g (lo k)) s
  = Some ({| letter_buf := <[Z.to_nat (lidx s1) := c]> (letter_buf s1);
             lidx := lidx s1 + 1;
             word_buf := word_buf s1; widx := widx s1;
             state := OFF; duration := SAMPLE_MS * Z.of_nat g |}, out).
Proof.
  intros Hst Hg Hlen Hl Hc Hgap.
  destruct (key_symbol_length c Hc) as (n & -> & Hn & Hsym).
  pose proof Hk as [Hhi Hlo _ _ _ _ _].
  unfold SAMPLE_MS, INT_MAX in *.
  destruct g as [|g]; [lia|].
  cbn [app run replicate]. rewrite loop_body_rising, Hg by done. simpl.
  rewrite run_app.
  rewrite run_steady; simpl.
  - rewrite length_replicate.
    rewrite loop_body_falling by done.
    rewrite record_symbol_room by (simpl; rewrite ?Hlen; unfold INT_MAX; lia).
    simpl.
    rewrite run_steady; simpl.
    + rewrite length_replicate, !app_nil_r.
      unfold with_timer, SAMPLE_MS. simpl.
      rewrite !wrap_id by (apply in_int_range; lia).
      replace (10 + 10 * Z.of_nat n) with (10 * (Z.of_nat n + 1)) by lia.
      rewrite Hsym. do 3 f_equal. lia.
    + by apply in_int_range.
    + apply Forall_replicate. unfold steady. simpl.
      unfold threshold, hysteresis in *. lia.
  - by apply in_int_range.
  - apply Forall_replicate. unfold steady. simpl.
    unfold threshold, hysteresis in *. lia.
Qed.

(** The symbols of a letter, keyed one after the other, are recorded in
    order behind those already pending. *)
Lemma key_code_run code : ∀ s s1 out g,
  code ≠ [] → Forall dot_or_dash code →
  state s = OFF → check_gaps s = Some (s1, out) → wf s1 →
  lidx s1 + Z.of_nat (length code) ≤ 16 →
  0 < SAMPLE_MS * Z.of_nat g ≤ INT_MAX →
  ∃ s', run (key_code k code g) s = Some (s', out)
    ∧ wf s' ∧ state s' = OFF ∧ duration s' = SAMPLE_MS * Z.of_nat g
    ∧ lidx s' = lidx s1 + Z.of_nat (length code)
    ∧ letter_text s' = letter_text s1 ++ code
    ∧ widx s' = widx s1 ∧ word_text s' = word_text s1.
Proof.
  induction code as [|c rest IH]; intros s s1 out g Hne Hcode Hst Hg Hwf Hroom Hgap;
    [done|].
  inversion_clear Hcode as [|? ? Hc Hrest].
  pose proof Hwf as [Hll Hwl Hl Hw Hlt Hwt].
  cbn [length] in Hroom.
  destruct rest as [|c2 rest].
  - cbn [key_code]. rewrite (run_pulse s s1 out c g) by (done || lia).
    eexists. split; [done|].
    split; [apply wf_recorded; (done || lia)|]. simpl.
    split; [done|]. split; [done|]. split; [lia|].
    split; [|by split].
    unfold letter_text at 1. simpl. apply letter_text_record. rewrite Hll. lia.
  - change (key_code k (c :: c2 :: rest) g)
      with (key_symbol k c ++ replicate (g_intra k) (lo k)
            ++ key_code k (c2 :: rest) g).
    rewrite app_assoc, run_app.
    pose proof Hk as [_ _ _ _ Hintra _ _].
    rewrite (run_pulse s s1 out c (g_intra k));
      [|done|done|done|cbn [length] in Hroom; lia|done
       |unfold SAMPLE_MS, INT_MAX, dot in *; lia].
    cbn [mbind option_bind fst snd].
    set (s2 := {| letter_buf := <[Z.to_nat (lidx s1) := c]> (letter_buf s1);
                  lidx := lidx s1 + 1;
                  word_buf := word_buf s1; widx := widx s1;
                  state := OFF;
                  duration := SAMPLE_MS * Z.of_nat (g_intra k) |}).
    assert (wf s2) as Hwf2
      by (apply wf_recorded; [done|cbn [length] in Hroom; lia|done]).
    destruct (IH s2 s2 [] g) as (s' & Hrun & Hwf' & Hst' & Hd' & Hl' & Hlt' & Hw' & Hwt');
      [done|done|done|apply check_gaps_short; simpl; lia|done
      |simpl; cbn [length] in *; lia|done|].
    rewrite Hrun. cbn [mbind option_bind fst snd]. exists s'. rewrite app_nil_r.
    split; [done|]. split; [done|]. split; [done|]. split; [done|].
    split; [rewrite Hl'; simpl; cbn [length]; lia|].
    split; [|by split].
    rewrite Hlt'. unfold letter_text at 1. simpl.
    rewrite letter_text_record by (rewrite Hll; cbn [length] in Hroom; lia).
    by rewrite <- app_assoc.
Qed.

(** A keyed letter and the gap after it, up to what the next rising edge
    will make of that gap. *)
Lemma key_letter_run m g s s1 out :
  keyable m → state s = OFF → check_gaps s = Some (s1, out) → wf s1 →
  lidx s1 = 0 → 0 < SAMPLE_MS * Z.of_nat g ≤ INT_MAX →
  ∃ s', run (key_code k (list_ascii_of_string m) g) s = Some (s', out)
    ∧ wf s' ∧ state s' = OFF ∧ duration s' = SAMPLE_MS * Z.of_nat g
    ∧ 0 < lidx s' < 16 ∧ letter_char s' = morse_to_char m
    ∧ widx s' = widx s1 ∧ word_text s' = word_text s1.
Proof.
  intros [Hlen Hsym] Hst Hg Hwf Hl0 Hgap.
  pose proof (string_length_of_list (list_ascii_of_string m)) as Hlen'.
  rewrite string_of_list_ascii_of_string in Hlen'.
  destruct (key_code_run (list_ascii_of_string m) s s1 out g)
    as (s' & Hrun & Hwf' & Hst' & Hd' & Hl' & Hlt' & Hw' & Hwt');
    [|done|done|done|done|lia|done|].
  { intros Hnil. rewrite Hnil in Hlen'. simpl in Hlen'. lia. }
  exists s'. repeat (split; [done || lia|]). split; [|done].
  unfold letter_char. rewrite Hlt'.
  assert (letter_text s1 = []) as ->.
  { unfold letter_text. by rewrite Hl0. }
  simpl. by rewrite string_of_list_ascii_of_string.
Qed.

(** A keyed word, up to the rising edge that will log it. *)
Lemma key_word_run codes : ∀ s s1 out,
  codes ≠ [] → Forall keyable codes →
  state s = OFF → check_gaps s = Some (s1, out) → wf s1 → lidx s1 = 0 →
  widx s1 + Z.of_nat (length codes) ≤ 63 →
  ∃ s' s1', run (key_word k codes) s = Some (s', out)
    ∧ state s' = OFF
    ∧ check_gaps s'
      = Some (s1', [Decoded_Word
                      (string_of_list_ascii
                         (word_text s1 ++ (morse_to_char <$> codes)))])
    ∧ wf s1' ∧ lidx s1' = 0 ∧ widx s1' = 0.
Proof.
  pose proof Hk as [_ _ _ _ _ Hletter Hword].
  induction codes as [|m rest IH]; intros s s1 out Hne Hcodes Hst Hg Hwf Hl0 Hroom;
    [done|].
  inversion_clear Hcodes as [|? ? Hm Hrest].
  cbn [length] in Hroom.
  destruct rest as [|m2 rest].
  - change (key_word k [m]) with (key_code k (list_ascii_of_string m) (g_word k)).
    destruct (key_letter_run m (g_word k) s s1 out)
      as (s' & Hrun & Hwf' & Hst' & Hd' & Hl' & Hc' & Hw' & Hwt');
      [done|done|done|done|done|unfold dot in *; lia|].
    set (s2 := {| letter_buf := <[Z.to_nat (lidx s') := NUL]> (letter_buf s');
                  lidx := 0;
                  word_buf := <[Z.to_nat (widx s' + 1) := NUL]>
                                (<[Z.to_nat (widx s') := letter_char s']>
                                   (word_buf s'));
                  widx := 0;
                  state := state s'; duration := duration s' |}).
    assert (check_gaps s'
            = Some (s2, [Decoded_Word
                           (string_of_list_ascii
                              (word_text s' ++ [letter_char s']))]))
      as Hgap.
    { rewrite check_gaps_word by lia.
      apply close_then_log; [done|done|cbn [length] in Hroom; lia]. }
    exists s', s2. split; [done|]. split; [done|].
    split; [by rewrite Hgap, Hwt', Hc'|].
    split; [|done]. by apply (wf_check_gaps s' _ _ Hwf' Hgap).
  - change (key_word k (m :: m2 :: rest))
      with (key_code k (list_ascii_of_string m) (g_letter k)
            ++ key_word k (m2 :: rest)).
    rewrite run_app.
    destruct (key_letter_run m (g_letter k) s s1 out)
      as (s' & Hrun & Hwf' & Hst' & Hd' & Hl' & Hc' & Hw' & Hwt');
      [done|done|done|done|done|unfold dot, INT_MAX in *; lia|].
    rewrite Hrun. cbn [mbind option_bind fst snd].
    pose proof Hwf' as [Hll Hwl _ Hwb _ _].
    set (s2 := {| letter_buf := <[Z.to_nat (lidx s') := NUL]> (letter_buf s');
                  lidx := 0;
                  word_buf := <[Z.to_nat (widx s') := letter_char s']> (word_buf s');
                  widx := widx s' + 1;
                  state := state s'; duration := duration s' |}).
    assert (check_gaps s' = Some (s2, [])) as Hgap.
    { rewrite check_gaps_letter by lia.
      rewrite close_letter_pending; [done|done|done|cbn [length] in Hroom; lia]. }
    assert (word_text s2 = word_text s1 ++ [morse_to_char m]) as Hwt2.
    { unfold word_text at 1. simpl.
      rewrite word_text_push by (rewrite Hwl; cbn [length] in Hroom; lia).
      by rewrite Hwt', Hc'. }
    destruct (IH s' s2 []) as (s'' & s1'' & Hrun' & Hst'' & Hgap' & Hwf'' & Hl'' & Hw'');
      [done|done|done|done|by apply (wf_check_gaps s' _ _ Hwf' Hgap)|done
      |simpl; cbn [length] in *; lia|].
    rewrite Hrun'. cbn [mbind option_bind fst snd]. rewrite app_nil_r.
    exists s'', s1''. split; [done|]. split; [done|].
    split; [|done]. rewrite Hgap', Hwt2. by rewrite <- app_assoc.
Qed.

(** A keyed message: every word but the last is logged by the first
    rising edge of the next, and the last is ready to be. *)
Lemma key_message_run words : ∀ s s1 out,
  Forall (λ w, w ≠ [] ∧ (length w ≤ 63)%nat ∧ Forall keyable w) words →
  state s = OFF → check_gaps s = Some (s1, out) → wf s1 →
  lidx s1 = 0 → widx s1 = 0 →
  ∃ s' s1' out' last,
    run (key_message k words) s = Some (s', out')
    ∧ state s' = OFF ∧ check_gaps s' = Some (s1', last)
    ∧ out' ++ last
      = out ++ ((λ w, Decoded_Word (string_of_list_ascii (morse_to_char <$> w)))
                  <$> words).
Proof.
  induction words as [|w rest IH]; intros s s1 out Hwords Hst Hg Hwf Hl0 Hw0.
  - exists s, s1, [], out. simpl. by rewrite app_nil_r.
  - inversion_clear Hwords as [|? ? (Hne & Hlen & Hcodes) Hrest].
    change (key_message k (w :: rest)) with (key_word k w ++ key_message k rest).
    rewrite run_app.
    destruct (key_word_run w s s1 out)
      as (s' & s1' & Hrun & Hst' & Hgap & Hwf' & Hl' & Hw');
      [done|done|done|done|done|done|lia|].
    rewrite Hrun. cbn [mbind option_bind fst snd].
    destruct (IH s' s1' _ Hrest Hst' Hgap Hwf' Hl' Hw')
      as (s'' & s1'' & out'' & last & Hrun' & Hst'' & Hgap' & Hout).
    rewrite Hrun'. cbn [mbind option_bind fst snd].
    exists s'', s1'', (out ++ out''), last.
    split; [done|]. split; [done|]. split; [done|].
    rewrite <- app_assoc, Hout. cbn [fmap list_fmap].
    assert (word_text s1 = []) as ->.
    { unfold word_text. by rewrite Hw0. }
    done.
Qed.
End Keyed.

Lemma table_lookup e : e ∈ morse_table → morse_to_char (morse e) = letter e.
Proof.
  assert (Forall (λ e, morse_to_char (morse e) = letter e) morse_table) as Hall.
  { apply (bool_decide_unpack _). by vm_compute. }
  apply (proj1 (list.Forall_forall _ _) Hall).
Qed.

Lemma table_code_keyable e : e ∈ morse_table → keyable (morse e).
Proof.
  intros He.
  assert (morse e ∈ table_codes) as Hin.
  { unfold table_codes. apply list_elem_of_fmap. by exists e. }
  destruct (proj1 (list.Forall_forall _ _) table_codes_shape _ Hin) as [Hlen Hsym].
  split; [lia|done].
Qed.



(** ** Calibration and sampling *)

Lemma last_cons_default {A} (l : list A) : ∀ a d,
  List.last l a = List.last (a :: l) d.
Proof.
  induction l as [|b l IH]; intros a d; [done|].
  change (List.last (a :: b :: l) d) with (List.last (b :: l) d).
  by rewrite <- !IH.
Qed.

Lemma sampling_loop_calibrated xs : ∀ volt s,
  Forall (λ x, read_err x = ESP_OK ∧ cali_err x = ESP_OK) xs →
  sampling_loop true xs volt s
  = (λ r : Locals * list Log, (List.last (cali_mv <$> xs) volt, r.1, r.2))
      <$> run (cali_mv <$> xs) s.
Proof.
  induction xs as [|x rest IH]; intros volt s Hok; [done|].
  inversion_clear Hok as [|? ? [Hread Hcali] Hrest].
  cbn [sampling_loop fmap list_fmap run]. unfold read_volt.
  rewrite !decide_True by done. cbn [mbind option_bind].
  destruct (loop_body (cali_mv x) s) as [[s1 o1]|]; [|done].
  cbn [mbind option_bind fst snd]. rewrite IH by done.
  destruct (run (cali_mv <$> rest) s1) as [[s2 o2]|]; [|done].
  cbn [fmap option_fmap option_map mbind option_bind fst snd].
  do 3 f_equal. apply last_cons_default.
Qed.

Lemma sampling_loop_uncalibrated xs : ∀ volt s,
  Forall (λ x, read_err x = ESP_OK) xs →
  sampling_loop false xs volt s
  = (λ r : Locals * list Log, (volt, r.1, r.2))
      <$> run (replicate (length xs) volt) s.
Proof.
  induction xs as [|x rest IH]; intros volt s Hok; [done|].
  inversion_clear Hok as [|? ? Hread Hrest].
  cbn [sampling_loop length replicate run]. unfold read_volt.
  rewrite decide_True by done. cbn [mbind option_bind].
  destruct (loop_body volt s) as [[s1 o1]|]; [|done].
  cbn [mbind option_bind fst snd]. rewrite IH by done.
  by destruct (run (replicate (length rest) volt) s1) as [[s2 o2]|].
Qed.

Lemma adc_calib_init_unavailable curve line :
  unavailable curve → unavailable line → (adc_calib_init curve line).1.1 = false.
Proof.
  unfold adc_calib_init, unavailable.
  destruct curve as [c|], line as [l|]; simpl; intros Hc Hl.
  - rewrite bool_decide_eq_false_2 by apply Hc. simpl.
    by rewrite bool_decide_eq_false_2 by apply Hl.
  - by rewrite bool_decide_eq_false_2 by apply Hc.
  - by rewrite bool_decide_eq_false_2 by apply Hl.
  - done.
Qed.

(** X8.  Without calibration the receiver is deaf.  When the target
    supports no calibration scheme, or the create function of every
    supported scheme fails, [volt] is never written: whatever the ADC
    reads, as long as its calls succeed, [app_main] stays in state [OFF],
    records no symbol and logs no word; it only counts the samples. *)
Theorem uncalibrated_receiver_is_deaf (curve line : option cali_create)
    (lb wb : list ascii) (xs : list Sample) :
  unavailable curve → unavailable line →
  Forall (λ x, read_err x = ESP_OK) xs →
  app_main ESP_OK ESP_OK curve line lb wb xs
  = Some (0,
          {| letter_buf := lb; lidx := 0; word_buf := wb; widx := 0;
             state := OFF;
             duration := wrap (SAMPLE_MS * Z.of_nat (length xs)) |},
          []).
Proof.
  intros Hc Hl Hok. unfold app_main. rewrite !decide_True by done.
  rewrite adc_calib_init_unavailable by done.
  rewrite sampling_loop_uncalibrated by done.
  rewrite run_steady; [by rewrite length_replicate|done|].
  by apply Forall_replicate.
Qed.

Lemma uncalibrated_receiver_is_deaf_witness :
  app_main ESP_OK ESP_OK None (Some (λ h, (-1, h)))
    (replicate 16 NUL) (replicate 64 NUL)
    [ {| read_err := 0; adc_raw := 4095; cali_err := 0; cali_mv := 3100 |};
      {| read_err := 0; adc_raw := 0; cali_err := 0; cali_mv := 0 |} ]
  = Some (0, with_timer OFF 20 zeroed, []).
Proof.
  apply (uncalibrated_receiver_is_deaf None (Some (λ h, (-1, h)))
           (replicate 16 NUL) (replicate 64 NUL)).
  - done.
  - intros h. done.
  - repeat constructor.
Defined.

(** X9.  With calibration, and as long as no ADC call fails, [app_main]
    is the loop run on the calibrated millivolts: the raw readings and the
    handle play no part in what is recorded and logged. *)
Theorem calibrated_receiver_runs_on_millivolts (curve line : option cali_create)
    (lb wb : list ascii) (xs : list Sample) :
  (adc_calib_init curve line).1.1 = true →
  Forall (λ x, read_err x = ESP_OK ∧ cali_err x = ESP_OK) xs →
  app_main ESP_OK ESP_OK curve line lb wb xs
  = (λ r : Locals * list Log, (List.last (cali_mv <$> xs) 0, r.1, r.2))
      <$> run (cali_mv <$> xs) (app_main_init lb wb).
Proof.
  intros Hcal Hok. unfold app_main. rewrite !decide_True by done.
  rewrite Hcal. by apply sampling_loop_calibrated.
Qed.

Lemma calibrated_receiver_runs_on_millivolts_witness :
  app_main ESP_OK ESP_OK (Some (λ h, (0, 7))) None
    (replicate 16 NUL) (replicate 64 NUL)
    [ {| read_err := 0; adc_raw := 120; cali_err := 0; cali_mv := 50 |};
      {| read_err := 0; adc_raw := 3; cali_err := 0; cali_mv := 0 |} ]
  = (λ r : Locals * list Log, (0, r.1, r.2)) <$> run [50; 0] zeroed.
Proof.
  apply (calibrated_receiver_runs_on_millivolts (Some (λ h, (0, 7))) None
           (replicate 16 NUL) (replicate 64 NUL)).
  - reflexivity.
  - repeat constructor.
Defined.


(** ** What a run leaves in the locals *)

Lemma loop_body_in_int volt s s' out :
  loop_body volt s = Some (s', out) → in_int (duration s').
Proof.
  unfold loop_body. destruct (led_on s volt).
  - destruct (match state s with OFF => _ | ON => _ end) as [r|]; [|done].
    simpl. intros [= <- _]. apply wrap_in_int.
  - destruct (match state s with OFF => _ | ON => _ end) as [s1|]; [|done].
    simpl. intros [= <- _]. apply wrap_in_int.
Qed.

Lemma run_in_int volts : ∀ s s' out,
  in_int (duration s) → run volts s = Some (s', out) → in_int (duration s').
Proof.
  induction volts as [|v rest IH]; simpl; intros s s' out Hint Hr.
  - by injection Hr as <- _.
  - destruct (loop_body v s) as [[s1 o1]|] eqn:Hb; [|done]. simpl in Hr.
    destruct (run rest s1) as [[s2 o2]|] eqn:Hrest; [|done]. simpl in Hr.
    injection Hr as <- _. eapply IH; [|exact Hrest].
    by eapply loop_body_in_int.
Qed.

(** X11.  Whatever the arrays held at startup and whatever is read, a run
    that does not overrun leaves the arrays at their lengths, [lidx] between
    0 and 16, [widx] between 0 and 64 and [duration] an [int]; the pending
    symbols are dots and dashes, and the characters of the word are capital
    letters or digits of the table or '?'. *)
Theorem reachable_locals (lb wb : list ascii) (volts : list Z)
    (s : Locals) (out : list Log) :
  length lb = 16%nat → length wb = 64%nat →
  run volts (app_main_init lb wb) = Some (s, out) →
  length (letter_buf s) = 16%nat ∧ length (word_buf s) = 64%nat
  ∧ 0 ≤ lidx s ≤ 16 ∧ 0 ≤ widx s ≤ 64 ∧ in_int (duration s)
  ∧ Forall dot_or_dash (letter_text s) ∧ Forall decoded_char (word_text s).
Proof.
  intros Hlb Hwb Hrun.
  pose proof (wf_init lb wb Hlb Hwb) as Hwf0.
  destruct (wf_run _ _ _ _ Hwf0 Hrun) as [Hll Hwl Hl Hw Hlt Hwt].
  assert (in_int (duration (app_main_init lb wb))) as Hint0
    by (apply in_int_range; simpl; lia).
  repeat (split; [done|]). split; [by apply (run_in_int volts _ _ _ Hint0 Hrun)|].
  split; [done|].
  apply (run_shape volts (app_main_init lb wb) s out); [done| |done].
  unfold word_text. simpl. constructor.
Qed.

Lemma reachable_locals_witness :
  let s := {| letter_buf := replicate 16 "."%char; lidx := 16;
              word_buf := replicate 64 NUL; widx := 0;
              state := ON; duration := 10 |} in
  length (letter_buf s) = 16%nat ∧ length (word_buf s) = 64%nat
  ∧ 0 ≤ lidx s ≤ 16 ∧ 0 ≤ widx s ≤ 64 ∧ in_int (duration s)
  ∧ Forall dot_or_dash (letter_text s) ∧ Forall decoded_char (word_text s).
Proof.
  intros s.
  apply (reachable_locals (replicate 16 NUL) (replicate 64 NUL)
           (concat (replicate 16 (pulse 1 1)) ++ [50]) s []);
    [reflexivity|reflexivity|by vm_compute].
Defined.

(** ** After a word *)

(** X12.  The rising edge that ends a word gap leaves nothing behind: once
    it has closed the pending letter and logged the word, within the arrays,
    the loop goes on exactly as it does after the same reading at startup:
    for every further run of readings it overruns or not, logs, and ends
    with the same indices, state, count, pending symbols and word. *)
Theorem word_gap_starts_afresh (s : Locals) (volt : Z) :
  wf s → state s = OFF → volt > threshold + hysteresis →
  5 * dot ≤ duration s →
  lidx s < 16 → Z.of_nat (length (word_with_pending s)) < 64 →
  ∃ s' out, loop_body volt s = Some (s', out)
    ∧ ∀ volts lb wb, length lb = 16%nat → length wb = 64%nat →
        (λ r, (view r.1, r.2)) <$> run volts s'
        = (λ r, (view r.1, r.2)) <$> run (volt :: volts) (app_main_init lb wb).
Proof.
  intros Hwf Hst Hv Hd Hl Hroom. pose proof Hwf as [Hll Hwl Hl0 Hw0 Hlt Hwt].
  assert (∃ s' out, loop_body volt s = Some (s', out)
                    ∧ view s' = (0, 0, ON, SAMPLE_MS, [], []))
    as (s' & out & Hb & Hview).
  { rewrite loop_body_rising, check_gaps_word by done.
    unfold word_with_pending in Hroom.
    rewrite length_app, word_text_length in Hroom by done.
    case_decide as Hpos; simpl in Hroom.
    - rewrite close_then_log by (done || lia). simpl. by eexists _, _.
    - rewrite close_letter_idle by lia. simpl.
      assert (lidx s = 0) as Hl00 by lia.
      destruct (decide (0 < widx s)) as [Hw|Hw].
      + rewrite log_word_pending by (done || lia). simpl.
        eexists _, _. split; [done|].
        unfold view, letter_text, word_text. simpl. by rewrite Hl00.
      + rewrite log_word_idle by lia. simpl.
        assert (widx s = 0) as Hw00 by lia.
        eexists _, _. split; [done|].
        unfold view, letter_text, word_text. simpl. by rewrite Hl00, Hw00. }
  exists s', out. split; [done|]. intros volts lb wb Hlb Hwb.
  cbn [run]. rewrite loop_body_rising by done.
  rewrite check_gaps_short by done. cbn [mbind option_bind fst snd].
  pose proof (wf_init lb wb Hlb Hwb) as Hwf0.
  pose proof (run_view volts s' (with_timer ON SAMPLE_MS (app_main_init lb wb))) as Hrv.
  rewrite Hrv; [|by apply (wf_loop_body volt s s' out)|by apply wf_with_timer|done].
  by destruct (run volts (with_timer ON SAMPLE_MS (app_main_init lb wb)))
    as [[s2 o2]|].
Qed.

Lemma word_gap_starts_afresh_witness :
  let s := {| letter_buf := ["."%char; "."%char] ++ replicate 14 NUL; lidx := 2;
              word_buf := ["H"%char] ++ replicate 63 NUL; widx := 1;
              state := OFF; duration := 250 |} in
  ∃ s' out, loop_body 50 s = Some (s', out)
    ∧ ∀ volts lb wb, length lb = 16%nat → length wb = 64%nat →
        (λ r, (view r.1, r.2)) <$> run volts s'
        = (λ r, (view r.1, r.2)) <$> run (50 :: volts) (app_main_init lb wb).
Proof.
  intros s. apply (word_gap_starts_afresh s 50); try done.
  split; simpl; try done; unfold letter_text, word_text; simpl;
    apply (bool_decide_unpack _); by vm_compute.
Defined.

(** ** Gaps longer than the count can hold *)

(** X13.  The count of a gap is kept modulo 2^32 ms.  A dark gap that
    takes the count past [INT_MAX], up to 2^32 ms and two dots more, is taken
    for a gap within a letter: the rising edge that ends it closes no
    letter and logs no word, however much is pending. *)
Theorem overlong_gap_is_ignored (s : Locals) (n : nat) (volt : Z) :
  state s = OFF → in_int (duration s) → volt > threshold + hysteresis →
  INT_MAX < duration s + SAMPLE_MS * Z.of_nat n < 4294967296 + 2 * dot →
  run (replicate n 0 ++ [volt]) s
  = Some ({| letter_buf := letter_buf s; lidx := lidx s;
             word_buf := word_buf s; widx := widx s;
             state := ON; duration := SAMPLE_MS |}, []).
Proof.
  intros Hst Hint Hv Hn. rewrite run_app.
  rewrite run_steady; [|done|].
  - rewrite length_replicate. cbn [mbind option_bind fst snd run].
    rewrite loop_body_rising by done.
    rewrite check_gaps_short; [done|]. simpl.
    unfold wrap, INT_MAX, SAMPLE_MS, dot in *.
    replace (duration s + 10 * Z.of_nat n + 2147483648)
      with (duration s + 10 * Z.of_nat n - 2147483648 + 1 * 4294967296) by lia.
    rewrite Z_mod_plus_full, Z.mod_small by lia. lia.
  - apply Forall_replicate. unfold steady. rewrite Hst. done.
Qed.

Lemma overlong_gap_is_ignored_witness :
  let s := {| letter_buf := ["."%char; "."%char] ++ replicate 14 NUL; lidx := 2;
              word_buf := ["H"%char] ++ replicate 63 NUL; widx := 1;
              state := OFF; duration := 2147483640 |} in
  run (replicate 1 0 ++ [50]) s
  = Some ({| letter_buf := letter_buf s; lidx := lidx s;
             word_buf := word_buf s; widx := widx s;
             state := ON; duration := SAMPLE_MS |}, []).
Proof.
  intros s. apply (overlong_gap_is_ignored s 1 50); done.
Defined.
